(** * Box folder mirroring tool (box_node/App.js): model and properties

    The script parses its command line, then for every requested root
    folder fetches the folder's name, creates the local root directory and
    walks the remote tree, opening a read stream for every file that is
    not yet in the per-root list of downloaded files.  A failed walk is
    retried after the delay of the server's retry-after header.

    The embedding has three parts:
    - [Cli]: the argument loop of lines 22-34, an index loop over
      [process.argv];
    - [Reader]: the paged listing of one folder (lines 62-67 and 84-101)
      in direct style over a page oracle;
    - [Sync]: the promise program of lines 69-171 as a deterministic
      transition function over the settlements the event loop delivers
      (a listing answered, a read stream opened, a timer fired).  Every
      callback of the source runs to completion inside one transition;
      the order of the settlements is the only freedom, and every list
      of events is a possible order (an event for a request that is not
      waiting is ignored).

    Taken as given: the file system calls and the two log functions do
    not throw, a write stream raises no error event, a listing that is
    answered has [item_collection.entries], and a rejection reason is an
    error object. *)

From Stdlib Require Import ZArith Ascii String Lia.
From stdpp Require Import gmap strings list fin_maps.

(** ** What the Node runtime provides *)

(** [__dirname], [process.cwd()] and [path.join] are not defined by the
    script; they are taken as given. *)
Record node := {
  dirname : string;
  cwd : string;
  path_join : string → string → string;
}.

(** ** Command line (lines 22-34) *)

Module Cli.

Record cli := {
  rootFolderIds : list string;
  destinationPath : string;
}.

Definition push (a : string) (c : cli) : cli :=
  {| rootFolderIds := rootFolderIds c ++ [a];
     destinationPath := destinationPath c |}.

Definition set_destination (p : string) (c : cli) : cli :=
  {| rootFolderIds := rootFolderIds c; destinationPath := p |}.

(** [process.argv[i + 1] && !process.argv[i + 1].startsWith("--")]: the
    next token exists, is not the empty string, and has no "--" prefix. *)
Definition usable_path (o : option string) : bool :=
  match o with
  | Some p => negb (bool_decide (p = "")) && negb (String.prefix "--" p)
  | None => false
  end.

(** The [for] loop from index [i]; [fuel] bounds the iterations. *)
Fixpoint loop (fuel : nat) (argv : list string) (i : nat) (c : cli) : cli :=
  match fuel with
  | O => c
  | S fuel' =>
    match argv !! i with
    | None => c
    | Some a =>
      if bool_decide (a = "--destination") then
        if usable_path (argv !! (i + 1)) then
          loop fuel' argv (i + 1 + 1)
            (set_destination (default "" (argv !! (i + 1))) c)
        else loop fuel' argv (i + 1) c
      else loop fuel' argv (i + 1) (push a c)
    end
  end.

(** [rootFolderIds = []], [destinationPath = __dirname], then the loop
    from index 2. *)
Definition parse (N : node) (argv : list string) : cli :=
  loop (length argv) argv 2
    {| rootFolderIds := []; destinationPath := dirname N |}.

(** The same scan by recursion on the remaining tokens. *)
Fixpoint scan (l : list string) (c : cli) : cli :=
  match l with
  | [] => c
  | a :: l' =>
    if bool_decide (a = "--destination") then
      match l' with
      | p :: l'' =>
        if usable_path (Some p) then scan l'' (set_destination p c)
        else scan l' c
      | [] => c
      end
    else scan l' (push a c)
  end.

End Cli.

(** ** Numbers read from a header (line 156) *)

(** A JavaScript number that [parseInt] can return, or its product
    with 1000: an integer that is a double, an infinity ([true] for the
    negative one), or NaN.  (The sign of zero is not kept; neither
    [setTimeout] nor a template string tells the zeros apart.) *)
Inductive jsnum := JNum (z : Z) | JInf (negative : bool) | JNaN.

(** The double nearest to the integer [z], ties to the even mantissa;
    an infinity from [2^1024 - 2^970] on. *)
Definition round_double (z : Z) : jsnum :=
  let m := Z.abs z in
  if (m <? 2 ^ 53)%Z then JNum z
  else
    let shift := (Z.log2 m - 52)%Z in
    let q := Z.shiftr m shift in
    let rest := Z.land m (Z.ones shift) in
    let half := Z.shiftl 1 (shift - 1) in
    let q' :=
      if (half <? rest)%Z || ((rest =? half)%Z && Z.odd q) then (q + 1)%Z
      else q in
    let r := Z.shiftl q' shift in
    if (2 ^ 1024 <=? r)%Z then JInf (z <? 0)%Z else JNum (Z.sgn z * r).

(** [a * k] for a positive integer [k]. *)
Definition jsmul (a : jsnum) (k : Z) : jsnum :=
  match a with
  | JNum z => round_double (z * k)
  | JInf negative => JInf negative
  | JNaN => JNaN
  end.

(** *** [setTimeout]: the delay that is waited *)


(** *** [parseInt] *)

(** A string is a sequence of code units below 256 (Node reads the bytes
    of a header value as Latin-1).  Among them the white space of
    JavaScript is TAB, LF, VT, FF, CR, the space and the no-break space
    U+00A0. *)
Definition is_space (a : ascii) : bool :=
  let n := nat_of_ascii a in
  (n =? 32) || ((9 <=? n) && (n <=? 13)) || (n =? 160).

Fixpoint skip_spaces (s : string) : string :=
  match s with
  | String a s' => if is_space a then skip_spaces s' else s
  | EmptyString => s
  end.

Definition digit (a : ascii) : option Z :=
  let n := nat_of_ascii a in
  if (48 <=? n) && (n <=? 57) then Some (Z.of_nat (n - 48)) else None.

(** The longest prefix of decimal digits, [None] when there is none. *)
Fixpoint digits (s : string) (acc : option Z) : option Z :=
  match s with
  | String a s' =>
    match digit a with
    | Some d => digits s' (Some (10 * default 0%Z acc + d)%Z)
    | None => acc
    end
  | EmptyString => acc
  end.

(** [parseInt(s, 10)]: leading white space, an optional sign, then
    decimal digits; anything after the digits is ignored.  The result is
    the double nearest to the integer the digits denote. *)
Definition parseInt (s : string) : jsnum :=
  match skip_spaces s with
  | String "-" r =>
    match digits r None with
    | Some n => round_double (- n)
    | None => JNaN
    end
  | String "+" r =>
    match digits r None with Some n => round_double n | None => JNaN end
  | r => match digits r None with Some n => round_double n | None => JNaN end
  end.

(** ** Remote data *)

(** One entry of [item_collection.entries]. *)
Record entry := {
  item_id : string;
  item_name : string;
  item_type : string;
}.

(** The part of a folder object the script reads. *)
Record folderInfo := {
  folder_name : string;
  entries : list entry;
}.

(** A rejection reason: an error object.  [statusCode] is a number or
    undefined ([OtherError]: a network or file system error, a
    TypeError).  [headers] is [error.response.headers]; it is [None]
    when [error.response] or its [headers] is undefined.  (The SDK
    builds the error of a failed call from the HTTP response and sets
    [statusCode] and [response] together, so its errors have headers;
    the script itself does not check.)  A header that is absent reads as
    undefined. *)
Inductive error :=
| ResponseError (statusCode : nat) (headers : option (gmap string string))
| OtherError (message : string).

(** The TypeError of reading a property of undefined. *)
Definition type_error : error :=
  OtherError "TypeError: Cannot read properties of undefined".

(** [items.length === 1000] (line 93): the offset of the next page. *)
Definition next_batch (offset : nat) (items : list entry) : option nat :=
  if length items =? 1000 then Some (offset + 1000) else None.

(** ** Remote Tree Reader in direct style (lines 62-67, 84-101) *)

Module Reader.

(** The listing call [client.folders.get(folderId, {limit, offset})] for
    one fixed folder. *)
Definition oracle := nat → nat → error + folderInfo.

(** [fetchItemsBatch(offset)]: returns the requests issued, as
    (offset, limit) pairs in order, and the outcome; [None] when the
    fuel ran out. *)
Fixpoint fetchItemsBatch (fuel : nat) (get : oracle) (offset : nat)
    (allItems : list entry) (reqs : list (nat * nat))
    : option (list (nat * nat) * (error + list entry)) :=
  match fuel with
  | O => None
  | S fuel' =>
    let reqs' := reqs ++ [(offset, 1000)] in
    match get offset 1000 with
    | inl e => Some (reqs', inl e)
    | inr folderInfo =>
      let items := entries folderInfo in
      let allItems' := allItems ++ items in
      match next_batch offset items with
      | Some offset' => fetchItemsBatch fuel' get offset' allItems' reqs'
      | None => Some (reqs', inr allItems')
      end
    end
  end.

Definition fetchAllFolderItems (fuel : nat) (get : oracle)
    : option (list (nat * nat) * (error + list entry)) :=
  fetchItemsBatch fuel get 0 [] [].

(** The requests for [count] pages from page [first] on. *)
Definition page_requests (first count : nat) : list (nat * nat) :=
  map (λ j, (j * 1000, 1000)) (seq first count).

(** A server that honours offset and limit over a fixed list of
    children. *)
Definition serve (name : string) (children : list entry) : oracle :=
  λ offset limit,
    inr {| folder_name := name;
           entries := take limit (drop offset children) |}.

End Reader.

(** ** The promise program (lines 69-171) as a transition function *)

Module Sync.

(** Lines written by [log]; the time stamp is left out. *)
Inductive logmsg :=
| LogDownloading (folderId : string)
| LogCompleted (rootFolderId : string)
| LogRateLimited (rootFolderId : string) (retryAfter : jsnum).

(** Lines written by [logError]. *)
Inductive errmsg :=
| ErrRateLimit (e : error)
| ErrDownload (rootFolderId : string) (e : error)
| ErrRootInfo (rootFolderId : string) (e : error).

(** What the script asks of its collaborators, in program order.  A
    request carries the identifier under which it is later settled. *)
Inductive action :=
| AFoldersGet (rid : nat) (folderId : string) (limit offset : nat)
| AGetReadStream (rid : nat) (fileId : string)
| AMkdir (path : string) (recursive : bool)
| ACreateWriteStream (path : string)
| APipe (fileId path : string)
| ASetTimeout (rid : nat) (ms : jsnum)
| ALog (m : logmsg)
| ALogError (m : errmsg).

(** The callback waiting on an unsettled request, with the variables its
    closure captured.  [att] names the call of [downloadFilesRecursively]
    made by [retryDownload] that the callback belongs to;
    [downloadedFiles] is a reference into the heap of arrays. *)
Inductive kont :=
| KRootInfo (run : nat) (rootFolderId : string)
| KPage (att : nat) (folderId localFolderPath : string) (offset : nat)
    (allItems : list entry)
| KStream (att : nat) (file : entry) (localFolderPath : string)
| KTimer (run : nat) (rootFolderId localRootPath : string)
    (downloadedFiles : nat).

(** The promise returned at line 148 by [downloadFilesRecursively]. *)
Inductive astatus := Running | Resolved | RejectedWith (e : error).

Record attempt := {
  a_run : nat;
  a_root : string;
  a_path : string;
  a_ledger : nat;
  a_status : astatus;
}.

(** Where the chain of lines 140-170 of one root stands: which promise
    it is waiting on, or how it ended. *)
Inductive chain :=
| InfoPending (rid : nat)
| Attempting (att : nat)
| Waiting (rid : nat)
| Completed
| Failed (e : error)
| InfoFailed (e : error)
| WrapperRejected (e : error).

Inductive outcome := Pending | Fulfilled | Rejected (e : error).

(** The promise returned by [retryDownload([])] at line 166; [None]
    while [retryDownload] has not been called. *)
Definition wrapper (c : chain) : option outcome :=
  match c with
  | InfoPending _ | InfoFailed _ => None
  | Attempting _ | Waiting _ => Some Pending
  | Completed | Failed _ => Some Fulfilled
  | WrapperRejected e => Some (Rejected e)
  end.

(** The program between two turns of the event loop:
    - [pending]: the unsettled requests and timers, each with its
      callback; [next_rid] numbers the next one;
    - [attempts]: the calls made by [retryDownload], in order;
    - [heap]: the arrays created by the literal [[]] of line 166; a
      variable [downloadedFiles] is an index into it, so that every
      closure holding the same array sees the same contents;
    - [dirs]: the directories [fs.existsSync] finds;
    - [pipes]: the pipes started, and [finished]: those among them that
      have reached the end of their stream (the script never asks);
    - [runs]: the chain of every requested root, by its position in
      [rootFolderIds];
    - [trace]: what has been asked of the collaborators so far. *)
Record state := {
  pending : gmap nat kont;
  next_rid : nat;
  attempts : list attempt;
  heap : list (list string);
  dirs : gset string;
  pipes : list (string * string);
  finished : gset nat;
  runs : list chain;
  trace : list action;
}.

Definition set_pending (f : gmap nat kont → gmap nat kont) (s : state) :=
  {| pending := f (pending s); next_rid := next_rid s;
     attempts := attempts s; heap := heap s; dirs := dirs s;
     pipes := pipes s; finished := finished s; runs := runs s;
     trace := trace s |}.

Definition set_next_rid (n : nat) (s : state) :=
  {| pending := pending s; next_rid := n;
     attempts := attempts s; heap := heap s; dirs := dirs s;
     pipes := pipes s; finished := finished s; runs := runs s;
     trace := trace s |}.

Definition set_attempts (f : list attempt → list attempt) (s : state) :=
  {| pending := pending s; next_rid := next_rid s;
     attempts := f (attempts s); heap := heap s; dirs := dirs s;
     pipes := pipes s; finished := finished s; runs := runs s;
     trace := trace s |}.

Definition set_heap (f : list (list string) → list (list string))
    (s : state) :=
  {| pending := pending s; next_rid := next_rid s;
     attempts := attempts s; heap := f (heap s); dirs := dirs s;
     pipes := pipes s; finished := finished s; runs := runs s;
     trace := trace s |}.

Definition set_dirs (f : gset string → gset string) (s : state) :=
  {| pending := pending s; next_rid := next_rid s;
     attempts := attempts s; heap := heap s; dirs := f (dirs s);
     pipes := pipes s; finished := finished s; runs := runs s;
     trace := trace s |}.

Definition set_pipes (f : list (string * string) → list (string * string))
    (s : state) :=
  {| pending := pending s; next_rid := next_rid s;
     attempts := attempts s; heap := heap s; dirs := dirs s;
     pipes := f (pipes s); finished := finished s; runs := runs s;
     trace := trace s |}.

Definition set_finished (f : gset nat → gset nat) (s : state) :=
  {| pending := pending s; next_rid := next_rid s;
     attempts := attempts s; heap := heap s; dirs := dirs s;
     pipes := pipes s; finished := f (finished s); runs := runs s;
     trace := trace s |}.

Definition set_runs (f : list chain → list chain) (s : state) :=
  {| pending := pending s; next_rid := next_rid s;
     attempts := attempts s; heap := heap s; dirs := dirs s;
     pipes := pipes s; finished := finished s; runs := f (runs s);
     trace := trace s |}.

Definition emit (a : action) (s : state) :=
  {| pending := pending s; next_rid := next_rid s;
     attempts := attempts s; heap := heap s; dirs := dirs s;
     pipes := pipes s; finished := finished s; runs := runs s;
     trace := trace s ++ [a] |}.

(** Issue an asynchronous request: the action is recorded and the
    callback waits under a fresh identifier. *)
Definition request (k : kont) (a : nat → action) (s : state) : state :=
  let rid := next_rid s in
  emit (a rid) (set_next_rid (S rid) (set_pending (insert rid k) s)).

(** [log(message)] and [logError(error)] (lines 44-58). *)
Definition log (m : logmsg) (s : state) : state := emit (ALog m) s.

Definition logError (m : errmsg) (s : state) : state := emit (ALogError m) s.

(** [fetchFolderInfo(folderId, offset, limit)] (lines 62-67): the call
    of [client.folders.get]; [k] is the callback chained on the result. *)
Definition fetchFolderInfo (k : kont) (folderId : string)
    (offset limit : nat) (s : state) : state :=
  request k (λ rid, AFoldersGet rid folderId limit offset) s.

Definition set_chain (run : nat) (c : chain) (s : state) : state :=
  set_runs (λ rs, <[run := c]> rs) s.

Definition set_status (att : nat) (st : astatus) (s : state) : state :=
  set_attempts
    (alter (λ a, {| a_run := a_run a; a_root := a_root a;
                    a_path := a_path a; a_ledger := a_ledger a;
                    a_status := st |}) att) s.

(** The array [downloadedFiles] of a call, read through its reference. *)
Definition ledger (att : nat) (s : state) : list string :=
  default [] (a ← attempts s !! att; heap s !! a_ledger a).

(** [downloadedFiles.includes(id)] *)
Definition includes (l : list string) (id : string) : bool :=
  bool_decide (id ∈ l).

(** [fs.mkdirSync(path)] and [fs.mkdirSync(path, { recursive: true })] *)
Definition mkdirSync (path : string) (recursive : bool) (s : state) : state :=
  emit (AMkdir path recursive) (set_dirs (λ d, {[path]} ∪ d) s).

(** [fetchItemsBatch(offset)] (lines 87-97) up to its request;
    [fetchFolderInfo] passes the limit 1000. *)
Definition fetchItemsBatch (att : nat) (folderId localFolderPath : string)
    (offset : nat) (allItems : list entry) (s : state) : state :=
  fetchFolderInfo (KPage att folderId localFolderPath offset allItems)
    folderId offset 1000 s.

(** [downloadFilesRecursively] (line 69) up to its first request:
    [fetchAllFolderItems] starts with [allItems = []] at offset 0. *)
Definition downloadFilesRecursively (att : nat)
    (folderId localFolderPath : string) (s : state) : state :=
  fetchItemsBatch att folderId localFolderPath 0 [] s.

(** [downloadFiles(files)] (lines 70-82): the callback of [files.map]
    for one file, then the whole map. *)
Definition downloadFile (att : nat) (localFolderPath : string) (s : state)
    (file : entry) : state :=
  if negb (includes (ledger att s) (item_id file)) then
    request (KStream att file localFolderPath)
      (λ rid, AGetReadStream rid (item_id file)) s
  else s.

Definition downloadFiles (att : nat) (localFolderPath : string)
    (files : list entry) (s : state) : state :=
  foldl (downloadFile att localFolderPath) s files.

(** The callback of [folders.map] (lines 115-122). *)
Definition visitSubfolder (N : node) (att : nat) (localFolderPath : string)
    (s : state) (subfolder : entry) : state :=
  let subfolderLocalPath := path_join N localFolderPath (item_name subfolder) in
  let s1 :=
    if bool_decide (subfolderLocalPath ∈ dirs s) then s
    else mkdirSync subfolderLocalPath false s in
  downloadFilesRecursively att (item_id subfolder) subfolderLocalPath s1.

(** The callback of lines 104-125, run once the listing is whole. *)
Definition processFolder (N : node) (att : nat)
    (folderId localFolderPath : string) (allItems : list entry)
    (s : state) : state :=
  let folders := filter (λ item, item_type item = "folder") allItems in
  let files := filter (λ item, item_type item = "file") allItems in
  let s1 := log (LogDownloading folderId) s in
  let newFiles :=
    filter (λ file, ¬ item_id file ∈ ledger att s1) files in
  let s2 := downloadFiles att localFolderPath newFiles s1 in
  foldl (visitSubfolder N att localFolderPath) s2 folders.

(** A callback of call [att] is still waiting. *)
Definition busy (att : nat) (k : kont) : Prop :=
  match k with
  | KPage a _ _ _ _ | KStream a _ _ => a = att
  | _ => False
  end.

#[global] Instance busy_dec att k : Decision (busy att k).
Proof. destruct k; simpl; apply _. Defined.

(** Every promise under the [Promise.all] tree of call [att] is
    fulfilled: none of its requests is unsettled.  (The leaves of the
    tree are the listing and read-stream requests of the call; a
    callback issues its own requests before it returns.) *)
Definition quiet (att : nat) (s : state) : bool :=
  bool_decide (map_Forall (λ _ k, ¬ busy att k) (pending s)).

(** The [.then] of lines 149-151, when the call's promise fulfils. *)
Definition resolve (att : nat) (s : state) : state :=
  match attempts s !! att with
  | Some a =>
    match a_status a with
    | Running =>
      if quiet att s then
        set_chain (a_run a) Completed
          (log (LogCompleted (a_root a)) (set_status att Resolved s))
      else s
    | _ => s
    end
  | None => s
  end.

(** The test of line 153 reads [error.response.headers] as soon as the
    status is 429, whether or not there is a response: it throws when
    there is none. *)
Definition test_throws (e : error) : bool :=
  match e with
  | ResponseError statusCode None => statusCode =? 429
  | _ => false
  end.

(** The test of line 153 when it does not throw: the header, when the
    status is 429 and the header is present and not the empty string. *)
Definition rate_limited (e : error) : option string :=
  match e with
  | ResponseError statusCode (Some headers) =>
    if statusCode =? 429 then
      match headers !! "retry-after" with
      | Some h => if bool_decide (h = "") then None else Some h
      | None => None
      end
    else None
  | _ => None
  end.

(** How a callback ends: it returns a plain value, throws, or returns a
    promise that waits on the timer [rid]. *)
Inductive completion := Returned | Thrown (e : error) | Awaiting (rid : nat).

(** [handleRateLimitError(rootFolderId, retryAfter)] (lines 129-136) up
    to [setTimeout]; [k] is the callback chained on its promise. *)
Definition handleRateLimitError (rootFolderId : string) (retryAfter : jsnum)
    (k : kont) (s : state) : state :=
  request k (λ rid, ASetTimeout rid (jsmul retryAfter 1000))
    (log (LogRateLimited rootFolderId retryAfter) s).

(** The [.catch] callback of lines 152-163. *)
Definition retryCatch (a : attempt) (e : error) (s : state)
    : completion * state :=
  if test_throws e then (Thrown type_error, s)
  else
    match rate_limited e with
    | Some h =>
      let s1 := logError (ErrRateLimit e) s in
      let retryAfter := parseInt h in
      (Awaiting (next_rid s1),
       handleRateLimitError (a_root a) retryAfter
         (KTimer (a_run a) (a_root a) (a_path a) (a_ledger a)) s1)
    | None => (Returned, logError (ErrDownload (a_root a) e) s)
    end.

(** The promise of [retryDownload] follows the callback's completion; a
    throw rejects it, and the rejection reaches the [.catch] of lines
    168-170. *)
Definition conclude (run : nat) (rootFolderId : string) (e : error)
    (c : completion) (s : state) : state :=
  match c with
  | Returned => set_chain run (Failed e) s
  | Thrown e' =>
    logError (ErrRootInfo rootFolderId e')
      (set_chain run (WrapperRejected e') s)
  | Awaiting rid => set_chain run (Waiting rid) s
  end.

(** A request of call [att] is rejected: [Promise.all] rejects with the
    first reason, later reasons are dropped. *)
Definition reject (att : nat) (e : error) (s : state) : state :=
  match attempts s !! att with
  | Some a =>
    match a_status a with
    | Running =>
      let '(c, s1) := retryCatch a e (set_status att (RejectedWith e) s) in
      conclude (a_run a) (a_root a) e c s1
    | _ => s
    end
  | None => s
  end.

(** [retryDownload(downloadedFiles)] (lines 147-148). *)
Definition retryDownload (run : nat) (rootFolderId localRootPath : string)
    (downloadedFiles : nat) (s : state) : state :=
  let att := length (attempts s) in
  let a := {| a_run := run; a_root := rootFolderId; a_path := localRootPath;
              a_ledger := downloadedFiles; a_status := Running |} in
  downloadFilesRecursively att rootFolderId localRootPath
    (set_chain run (Attempting att) (set_attempts (λ l, l ++ [a]) s)).

(** The [.then] callback of lines 141-167; the literal [[]] of line 166
    is a fresh array. *)
Definition rootInfo (N : node) (dest : string) (run : nat)
    (rootFolderId : string) (rootFolderInfo : folderInfo) (s : state)
    : state :=
  let localRootPath := path_join N dest (folder_name rootFolderInfo) in
  let s1 := mkdirSync localRootPath true s in
  let downloadedFiles := length (heap s1) in
  retryDownload run rootFolderId localRootPath downloadedFiles
    (set_heap (λ h, h ++ [[]]) s1).

(** The callback of lines 73-77. *)
Definition streamOpened (att : nat) (file : entry) (localFolderPath : string)
    (N : node) (s : state) : state :=
  let output := path_join N localFolderPath (item_name file) in
  let s1 := emit (ACreateWriteStream output) s in
  let s2 := emit (APipe (item_id file) output)
              (set_pipes (λ p, p ++ [(item_id file, output)]) s1) in
  match attempts s2 !! att with
  | Some a => set_heap (alter (λ l, l ++ [item_id file]) (a_ledger a)) s2
  | None => s2
  end.

(** What the event loop delivers. *)
Inductive event :=
| FolderSettled (rid : nat) (r : error + folderInfo)
| StreamSettled (rid : nat) (r : option error)
| TimerFired (rid : nat)
| PipeFinished (k : nat).

Definition take_pending (rid : nat) (s : state) : state :=
  set_pending (delete rid) s.

Definition step (N : node) (dest : string) (s : state) (ev : event) : state :=
  match ev with
  | FolderSettled rid r =>
    match pending s !! rid with
    | Some (KRootInfo run rootFolderId) =>
      let s1 := take_pending rid s in
      match r with
      | inr rootFolderInfo => rootInfo N dest run rootFolderId rootFolderInfo s1
      | inl e =>
        logError (ErrRootInfo rootFolderId e)
          (set_chain run (InfoFailed e) s1)
      end
    | Some (KPage att folderId localFolderPath offset allItems) =>
      let s1 := take_pending rid s in
      match r with
      | inr folderInfo =>
        let items := entries folderInfo in
        let allItems' := allItems ++ items in
        match next_batch offset items with
        | Some offset' =>
          fetchItemsBatch att folderId localFolderPath offset' allItems' s1
        | None =>
          resolve att (processFolder N att folderId localFolderPath allItems' s1)
        end
      | inl e => reject att e s1
      end
    | _ => s
    end
  | StreamSettled rid r =>
    match pending s !! rid with
    | Some (KStream att file localFolderPath) =>
      let s1 := take_pending rid s in
      match r with
      | None => resolve att (streamOpened att file localFolderPath N s1)
      | Some e => reject att e s1
      end
    | _ => s
    end
  | TimerFired rid =>
    match pending s !! rid with
    | Some (KTimer run rootFolderId localRootPath downloadedFiles) =>
      retryDownload run rootFolderId localRootPath downloadedFiles
        (take_pending rid s)
    | _ => s
    end
  | PipeFinished k =>
    if bool_decide (k < length (pipes s)) then set_finished (union {[k]}) s
    else s
  end.

Definition run_events (N : node) (dest : string) (s : state)
    (evs : list event) : state :=
  foldl (step N dest) s evs.

(** [rootFolderIds.forEach] up to each root's first request (line 140). *)
Definition launch (s : state) (rootFolderId : string) : state :=
  let run := length (runs s) in
  fetchFolderInfo (KRootInfo run rootFolderId) rootFolderId 0 1000
    (set_runs (λ rs, rs ++ [InfoPending (next_rid s)]) s).

Definition empty_state (dirs0 : gset string) : state :=
  {| pending := ∅; next_rid := 0; attempts := []; heap := [];
     dirs := dirs0; pipes := []; finished := ∅; runs := []; trace := [] |}.

Definition boot (dirs0 : gset string) (roots : list string) : state :=
  foldl launch (empty_state dirs0) roots.

(** One call [retryDownload(downloadedFiles)] on its own, the array
    holding [files] already. *)
Definition sync_from (dirs0 : gset string) (rootFolderId localRootPath : string)
    (files : list string) : state :=
  retryDownload 0 rootFolderId localRootPath 0
    (set_runs (λ _, [Waiting 0])
       (set_heap (λ _, [files]) (empty_state dirs0))).

End Sync.

(** ** Vocabulary for the command line *)

Module CliProps.

(** The token at index [i] is taken as the destination path: it comes
    right after a marker, is not empty and does not begin with "--". *)
Definition taken_as_path (argv : list string) (i : nat) : Prop :=
  3 ≤ i ∧ argv !! (i - 1) = Some "--destination"
  ∧ Cli.usable_path (argv !! i) = true.

(** The token at index [i] is neither of the first two, nor a marker,
    nor taken as the destination path. *)
Definition becomes_root (argv : list string) (i : nat) : Prop :=
  2 ≤ i ∧ argv !! i ≠ Some "--destination" ∧ ¬ taken_as_path argv i.

#[global] Instance taken_as_path_dec argv i : Decision (taken_as_path argv i).
Proof. unfold taken_as_path. apply _. Defined.

#[global] Instance becomes_root_dec argv i : Decision (becomes_root argv i).
Proof. unfold becomes_root. apply _. Defined.

(** The tokens at the indices that satisfy [P], in the order of the
    command line. *)
Definition tokens_at (P : nat → Prop) `{!∀ i, Decision (P i)}
    (argv : list string) (first count : nat) : list string :=
  omap (λ i, if decide (P i) then argv !! i else None) (seq first count).

(** The root folder identifiers and the destination paths told by the
    position of their tokens, to be compared with what the loop
    computes. *)
Definition root_tokens (argv : list string) : list string :=
  tokens_at (becomes_root argv) argv 0 (length argv).

Definition path_tokens (argv : list string) : list string :=
  tokens_at (taken_as_path argv) argv 0 (length argv).

End CliProps.

(** ** Vocabulary for the properties *)

Module SyncProps.
Import Sync.

(** A callback through which the chain of root [run] continues: the
    root's own folder request, or a retry timer. *)
Definition token (run : nat) (k : kont) : Prop :=
  match k with
  | KRootInfo r _ | KTimer r _ _ _ => r = run
  | _ => False
  end.

(** Nothing is left that could continue the chain of root [run]. *)
Definition idle (run : nat) (s : state) : Prop :=
  map_Forall (λ _ k, ¬ token run k) (pending s)
  ∧ Forall (λ a, a_run a = run → a_status a ≠ Running) (attempts s).

Definition terminal (c : chain) : Prop :=
  match c with
  | Completed | Failed _ | InfoFailed _ | WrapperRejected _ => True
  | _ => False
  end.

(** The number of calls of [retryDownload] made for root [run]. *)
Definition launched (run : nat) (s : state) : nat :=
  length (filter (λ r, r = run) (a_run <$> attempts s)).

(** The file identifier occurs in some [downloadedFiles] array. *)
Definition marked (id : string) (s : state) : Prop :=
  ∃ l, l ∈ heap s ∧ id ∈ l.

(** A pipe of the file has been started. *)
Definition piped (id : string) (s : state) : Prop :=
  ∃ path, APipe id path ∈ trace s.

(** A pipe of the file has run to its end. *)
Definition written (id : string) (s : state) : Prop :=
  ∃ k path, pipes s !! k = Some (id, path) ∧ k ∈ finished s.

(** The error passes the test of line 153 with a header the program can
    read a number from. *)
Definition parseable_429 (e : error) (n : Z) : Prop :=
  ∃ headers h, e = ResponseError 429 (Some headers)
    ∧ headers !! "retry-after" = Some h ∧ parseInt h = JNum n.

(** The error is no 429, or it is a 429 whose retry-after header is
    missing or empty.  (A 429 that has no response at all is not among
    them: the test of line 153 throws on it.) *)
Definition no_retry_header (e : error) : Prop :=
  match e with
  | ResponseError statusCode None => statusCode ≠ 429
  | ResponseError statusCode (Some headers) =>
    statusCode ≠ 429 ∨ headers !! "retry-after" = None
    ∨ headers !! "retry-after" = Some ""
  | OtherError _ => True
  end.

(** The error is no 429, or it is a 429 without a header a number can be
    read from. *)
Definition no_parseable_header (e : error) : Prop :=
  ∀ n, ¬ parseable_429 e n.

(** Actions other than a pipe and the report of lines 168-170. *)
Definition plain (a : action) : Prop :=
  match a with
  | APipe _ _ | ALogError (ErrRootInfo _ _) => False
  | _ => True
  end.

(** Request identifiers are handed out once. *)
Definition fresh (s : state) : Prop :=
  ∀ rid k, pending s !! rid = Some k → rid < next_rid s.

(** From [s] to [s'] only requests were issued and actions recorded:
    every new callback satisfies [P], every new action [Q], and nothing
    that was outstanding has been taken. *)
Record walk (P : kont → Prop) (Q : action → Prop) (s s' : state) : Prop := {
  walk_attempts : attempts s' = attempts s;
  walk_runs : runs s' = runs s;
  walk_heap : heap s' = heap s;
  walk_pipes : pipes s' = pipes s;
  walk_finished : finished s' = finished s;
  walk_rid : next_rid s ≤ next_rid s';
  walk_pending : ∀ rid k,
    pending s' !! rid = Some k → pending s !! rid = Some k ∨ P k;
  walk_trace : ∃ ex, trace s' = trace s ++ ex ∧ Forall Q ex;
  walk_keeps : fresh s → fresh s' ∧ pending s ⊆ pending s';
}.

(** The files [processFolder] asks a read stream for. *)
Definition new_files (att : nat) (allItems : list entry) (s : state)
    : list entry :=
  filter (λ file, ¬ item_id file ∈ ledger att s)
    (filter (λ item, item_type item = "file") allItems).

(** What holds of every state the program reaches. *)
Record inv (s : state) : Prop := {
  inv_info : ∀ rid run root,
    pending s !! rid = Some (KRootInfo run root) →
    runs s !! run = Some (InfoPending rid);
  inv_timer : ∀ rid run root p l,
    pending s !! rid = Some (KTimer run root p l) →
    runs s !! run = Some (Waiting rid) ∧ l < length (heap s);
  inv_running : ∀ att a,
    attempts s !! att = Some a → a_status a = Running →
    runs s !! a_run a = Some (Attempting att);
  inv_fresh : ∀ run rid,
    runs s !! run = Some (InfoPending rid) →
    Forall (λ a, a_run a ≠ run) (attempts s);
  inv_busy : ∀ rid k att,
    pending s !! rid = Some k → busy att k → att < length (attempts s);
  inv_ledger : Forall (λ a, a_ledger a < length (heap s)) (attempts s);
  inv_logged : ∀ run e,
    runs s !! run = Some (Failed e) →
    ∃ root, ALogError (ErrDownload root e) ∈ trace s;
  inv_marked : ∀ id, marked id s ↔ piped id s;
}.

(** The error has the headers of a response whenever its status is
    429, as the errors have that the SDK builds from a response. *)
Definition with_response (e : error) : Prop :=
  ∀ statusCode, e = ResponseError statusCode None → statusCode ≠ 429.

(** What is delivered is an answer, or an error with its response. *)
Definition answered (ev : event) : Prop :=
  match ev with
  | FolderSettled _ (inl e) | StreamSettled _ (Some e) => with_response e
  | _ => True
  end.

(** No promise of [retryDownload] is rejected, and the report of lines
    168-170 has been written only for failed folder requests of a
    root. *)
Record sound (s : state) : Prop := {
  sound_wrapper : ∀ run e, runs s !! run ≠ Some (WrapperRejected e);
  sound_outer : ∀ root e,
    ALogError (ErrRootInfo root e) ∈ trace s →
    ∃ run, runs s !! run = Some (InfoFailed e);
}.

(** From [s] to [s'] no promise of [retryDownload] was rejected and the
    report of lines 168-170 was not written. *)
Definition mild (s s' : state) : Prop :=
  (∀ run e, runs s' !! run = Some (WrapperRejected e) →
     runs s !! run = Some (WrapperRejected e))
  ∧ (∀ root e, ALogError (ErrRootInfo root e) ∈ trace s' →
       ALogError (ErrRootInfo root e) ∈ trace s).

(** What the chain [c] of root [run] is waiting on is outstanding: the
    root's folder request, the retry timer, or a request of the call
    that is running. *)
Definition waits (s : state) (run : nat) (c : chain) : Prop :=
  match c with
  | InfoPending rid => ∃ root, pending s !! rid = Some (KRootInfo run root)
  | Waiting rid =>
    ∃ root path l, pending s !! rid = Some (KTimer run root path l)
  | Attempting att =>
    (∃ a, attempts s !! att = Some a ∧ a_run a = run ∧ a_status a = Running)
    ∧ ∃ rid k, pending s !! rid = Some k ∧ busy att k
  | _ => True
  end.

(** Every root but [run] has what it is waiting on. *)
Definition live_but (run : nat) (s : state) : Prop :=
  fresh s ∧ ∀ r c, r ≠ run → runs s !! r = Some c → waits s r c.

(** Every root has what it is waiting on. *)
Definition live (s : state) : Prop :=
  fresh s ∧ ∀ r c, runs s !! r = Some c → waits s r c.

(** Roots whose chain has ended keep their end and get no further call
    of [retryDownload]. *)
Definition stable (s s' : state) : Prop :=
  ∀ run c, runs s !! run = Some c → terminal c →
    runs s' !! run = Some c ∧ launched run s' = launched run s.

(** The settlement that rejects the request [rid] waiting in [k]. *)
Definition fails (rid : nat) (k : kont) (e : error) : event :=
  match k with
  | KStream _ _ _ => StreamSettled rid (Some e)
  | _ => FolderSettled rid (inl e)
  end.

(** The settlement that answers the request [rid] waiting in [k]: the
    listing [info], or the opened read stream. *)
Definition succeeds (rid : nat) (k : kont) (info : folderInfo) : event :=
  match k with
  | KStream _ _ _ => StreamSettled rid None
  | _ => FolderSettled rid (inr info)
  end.

(** Every listed file is already in [files]. *)
Definition listed_in (files : list string) (items : list entry) : Prop :=
  ∀ item, item ∈ items → item_type item = "file" → item_id item ∈ files.

Definition lists_within (files : list string) (ev : event) : Prop :=
  match ev with
  | FolderSettled _ (inr info) => listed_in files (entries info)
  | _ => True
  end.

(** Asking for a read stream, opening the local file, piping. *)
Definition transfer (a : action) : Prop :=
  match a with
  | AGetReadStream _ _ | ACreateWriteStream _ | APipe _ _ => True
  | _ => False
  end.

(** What a callback may be while every listed file is in [files]. *)
Definition covered_kont (files : list string) (calls : nat) (k : kont)
    : Prop :=
  match k with
  | KPage att _ _ _ allItems => att < calls ∧ listed_in files allItems
  | KTimer _ _ _ l => l = 0
  | _ => False
  end.

(** The one array holds [files], every call uses it, and nothing has
    been transferred. *)
Record covered (files : list string) (s : state) : Prop := {
  cov_heap : heap s = [files];
  cov_ledger : Forall (λ a, a_ledger a = 0) (attempts s);
  cov_trace : Forall (λ a, ¬ transfer a) (trace s);
  cov_pending : ∀ rid k,
    pending s !! rid = Some k →
    covered_kont files (length (attempts s)) k;
}.


End SyncProps.

(** ** Sample inputs *)

Module Samples.
Import Sync.

Definition box : node :=
  {| dirname := "/opt/box_node"; cwd := "/home/user";
     path_join := λ a b, a +:+ "/" +:+ b |}.

Definition report : entry :=
  {| item_id := "f1"; item_name := "report.txt"; item_type := "file" |}.

Definition photos : entry :=
  {| item_id := "d1"; item_name := "photos"; item_type := "folder" |}.

Definition root_info (items : list entry) : folderInfo :=
  {| folder_name := "Shared"; entries := items |}.

Definition limited (h : string) : error :=
  ResponseError 429 (Some {["retry-after" := h]}).

(** A 429 that has no response. *)
Definition no_response : error := ResponseError 429 None.


(** A retry-after header in its date form. *)
Definition http_date : string := "Wed, 21 Oct 2015 07:28:00 GMT".

(** The listing of the subfolder is rate limited while the read stream
    of the file is still being opened; the timer fires before the
    stream arrives. *)
Definition overlap : list event :=
  [ FolderSettled 0 (inr (root_info []));
    FolderSettled 1 (inr (root_info [report; photos]));
    FolderSettled 3 (inl (limited "1"));
    TimerFired 4;
    FolderSettled 5 (inr (root_info [report; photos]));
    StreamSettled 2 None;
    StreamSettled 6 None ].

(** One file, its read stream opened. *)
Definition opened : list event :=
  [ FolderSettled 0 (inr (root_info []));
    FolderSettled 1 (inr (root_info [report]));
    StreamSettled 2 None ].

Definition many (n : nat) : list entry :=
  replicate n report.

End Samples.

(** * Properties *)

(** ** Command line *)

Section CliFacts.
Import Cli.

Local Arguments usable_path : simpl never.

Lemma scan_cons a l' c :
  scan (a :: l') c
  = if bool_decide (a = "--destination") then
      match l' with
      | p :: l'' =>
        if usable_path (Some p) then scan l'' (set_destination p c)
        else scan l' c
      | [] => c
      end
    else scan l' (push a c).
Proof. reflexivity. Qed.

Lemma loop_scan fuel : ∀ argv i c,
  length argv - i ≤ fuel → loop fuel argv i c = scan (drop i argv) c.
Proof.
  induction fuel as [|fuel IH]; intros argv i c Hf; cbn [loop].
  - rewrite drop_ge by lia. reflexivity.
  - destruct (argv !! i) as [a|] eqn:Hi.
    + pose proof (lookup_lt_Some _ _ _ Hi) as Hlt.
      rewrite (drop_S _ _ _ Hi), scan_cons.
      replace (i + 1) with (S i) by lia.
      destruct (bool_decide (a = "--destination")).
      * destruct (argv !! S i) as [p|] eqn:Hp.
        -- rewrite (drop_S _ _ _ Hp).
           destruct (usable_path (Some p)); cbn [default].
           ++ replace (S i + 1) with (S (S i)) by lia. apply IH. lia.
           ++ rewrite IH by lia. rewrite (drop_S _ _ _ Hp). reflexivity.
        -- replace (usable_path None) with false by reflexivity.
           rewrite IH by lia.
           apply lookup_ge_None in Hp.
           rewrite drop_ge by lia. reflexivity.
      * apply IH. lia.
    + apply lookup_ge_None in Hi. rewrite drop_ge by lia. reflexivity.
Qed.

Lemma parse_scan N argv :
  parse N argv
  = scan (drop 2 argv) {| rootFolderIds := []; destinationPath := dirname N |}.
Proof. unfold parse. apply loop_scan. lia. Qed.

(** The scan only appends to the identifiers it starts from. *)
Lemma scan_roots_app l : ∀ c,
  ∃ added, rootFolderIds (scan l c) = rootFolderIds c ++ added.
Proof.
  induction l as [l IH] using (induction_ltof1 _ (@length string)).
  unfold ltof in IH. intros c.
  destruct l as [|a l']; [|rewrite scan_cons].
  - exists []. by rewrite app_nil_r.
  - destruct (bool_decide (a = "--destination")).
    + destruct l' as [|p l''].
      * exists []. by rewrite app_nil_r.
      * destruct (usable_path (Some p)).
        -- apply (IH l'' ltac:(simpl; lia) (set_destination p c)).
        -- apply (IH (p :: l'') ltac:(simpl; lia) c).
    + destruct (IH l' ltac:(simpl; lia) (push a c)) as (added & H1).
      exists (a :: added). rewrite H1. simpl. by rewrite <- app_assoc.
Qed.

(** The marker itself never becomes a root identifier. *)
Lemma scan_no_marker l : ∀ c,
  "--destination" ∉ rootFolderIds c →
  "--destination" ∉ rootFolderIds (scan l c).
Proof.
  induction l as [l IH] using (induction_ltof1 _ (@length string)).
  unfold ltof in IH. intros c Hc.
  destruct l as [|a l']; [exact Hc|rewrite scan_cons].
  destruct (bool_decide (a = "--destination")) eqn:Ha.
  - destruct l' as [|p l'']; [exact Hc|].
    destruct (usable_path (Some p)).
    + apply IH; [simpl; lia|exact Hc].
    + apply IH; [simpl; lia|exact Hc].
  - apply IH; [simpl; lia|]. simpl.
    apply bool_decide_eq_false in Ha.
    rewrite elem_of_app, list_elem_of_singleton. intros [?|?]; [tauto|congruence].
Qed.

(** A token is skipped only as the marker or as the path the marker
    takes. *)
Lemma scan_keeps l : ∀ c j t,
  l !! j = Some t → t ≠ "--destination" →
  ¬ (1 ≤ j ∧ l !! (j - 1) = Some "--destination"
     ∧ usable_path (Some t) = true) →
  t ∈ rootFolderIds (scan l c).
Proof.
  induction l as [l IH] using (induction_ltof1 _ (@length string)).
  unfold ltof in IH. intros c j t Hj Ht Hno.
  destruct l as [|a l']; [done|]. rewrite scan_cons.
  destruct (bool_decide (a = "--destination")) eqn:Ha.
  - apply bool_decide_eq_true in Ha. subst a.
    destruct j as [|j]; [simpl in Hj; congruence|]. simpl in Hj.
    destruct l' as [|p l'']; [done|].
    destruct (usable_path (Some p)) eqn:Hp.
    + destruct j as [|j].
      * simpl in Hj. injection Hj as ->. exfalso. apply Hno.
        split; [lia|]. split; [reflexivity|exact Hp].
      * simpl in Hj. apply (IH l'' ltac:(simpl; lia) _ j t Hj Ht).
        intros (Hj1 & Hprev & Hu). apply Hno. split; [lia|]. split; [|exact Hu].
        destruct j as [|j]; [lia|]. simpl in *.
        rewrite Nat.sub_0_r in *. exact Hprev.
    + apply (IH (p :: l'') ltac:(simpl; lia) _ j t Hj Ht).
      intros (Hj1 & Hprev & Hu). apply Hno. split; [lia|]. split; [|exact Hu].
      destruct j as [|j]; [lia|]. simpl in *.
      rewrite Nat.sub_0_r in *. exact Hprev.
  - destruct j as [|j].
    + simpl in Hj. injection Hj as ->.
      destruct (scan_roots_app l' (push t c)) as (added & ->).
      simpl. rewrite !elem_of_app, list_elem_of_singleton. tauto.
    + simpl in Hj. apply (IH l' ltac:(simpl; lia) _ j t Hj Ht).
      intros (Hj1 & Hprev & Hu). apply Hno. split; [lia|]. split; [|exact Hu].
      destruct j as [|j]; [lia|]. simpl in *.
      rewrite Nat.sub_0_r in *. exact Hprev.
Qed.

(** Without a marker the destination is left alone. *)
Lemma scan_no_option l : ∀ c,
  "--destination" ∉ l → destinationPath (scan l c) = destinationPath c.
Proof.
  induction l as [|a l' IH]; intros c Hl; [reflexivity|rewrite scan_cons].
  rewrite not_elem_of_cons in Hl. destruct Hl as [Ha Hl'].
  rewrite bool_decide_eq_false_2 by congruence.
  rewrite IH by exact Hl'. reflexivity.
Qed.

(** The marker is always reached, whatever precedes it. *)
Lemma scan_option pre : ∀ c p post,
  usable_path (Some p) = true → "--destination" ∉ post →
  destinationPath (scan (pre ++ "--destination" :: p :: post) c) = p.
Proof.
  induction pre as [pre IH] using (induction_ltof1 _ (@length string)).
  unfold ltof in IH. intros c p post Hp Hpost.
  destruct pre as [|a pre']; cbn [app]; rewrite scan_cons.
  - rewrite bool_decide_eq_true_2 by reflexivity.
    rewrite Hp. rewrite scan_no_option by exact Hpost. reflexivity.
  - destruct (bool_decide (a = "--destination")) eqn:Ha.
    + destruct pre' as [|q pre'']; cbn [app].
      * (* the next token is the marker itself: not usable *)
        apply (IH [] ltac:(simpl; lia) c p post Hp Hpost).
      * destruct (usable_path (Some q)) eqn:Hq.
        -- apply IH; [simpl; lia|exact Hp|exact Hpost].
        -- apply (IH (q :: pre'') ltac:(simpl; lia) c p post Hp Hpost).
    + apply IH; [simpl; lia|exact Hp|exact Hpost].
Qed.

End CliFacts.

(** ** Command line, by index *)

Section CliIndexFacts.
Import Cli CliProps.

Local Arguments usable_path : simpl never.

Lemma usable_not_marker o :
  usable_path o = true → o ≠ Some "--destination".
Proof. intros H ->. discriminate H. Qed.

Lemma tokens_at_S (P : nat → Prop) `{!∀ i, Decision (P i)} argv i n :
  tokens_at P argv i (S n)
  = match (if decide (P i) then argv !! i else None) with
    | Some t => t :: tokens_at P argv (S i) n
    | None => tokens_at P argv (S i) n
    end.
Proof. reflexivity. Qed.

Lemma default_last_cons (d p : string) l :
  default d (last (p :: l)) = default p (last l).
Proof. rewrite last_cons. by destruct (last l). Qed.

(** The scan from index [i], when the token there is not a path that
    the marker before it takes. *)
Lemma scan_tokens argv n : ∀ i c,
  i + n = length argv → 2 ≤ i → ¬ taken_as_path argv i →
  rootFolderIds (scan (drop i argv) c)
  = rootFolderIds c ++ tokens_at (becomes_root argv) argv i n
  ∧ destinationPath (scan (drop i argv) c)
    = default (destinationPath c)
        (last (tokens_at (taken_as_path argv) argv i n)).
Proof.
  induction n as [n IH] using lt_wf_ind. intros i c Hlen Hi Hno.
  destruct n as [|n].
  - rewrite drop_ge by lia. simpl. by rewrite app_nil_r.
  - destruct (lookup_lt_is_Some_2 argv i ltac:(lia)) as [a Ha].
    rewrite (drop_S _ _ _ Ha), scan_cons, !tokens_at_S.
    rewrite (decide_False (P := taken_as_path argv i)) by exact Hno.
    case_bool_decide as Hm.
    + subst a.
      rewrite (decide_False (P := becomes_root argv i))
        by (intros (_ & H & _); by apply H).
      destruct n as [|n].
      { rewrite drop_ge by lia. simpl. by rewrite app_nil_r. }
      destruct (lookup_lt_is_Some_2 argv (S i) ltac:(lia)) as [p Hp].
      rewrite (drop_S _ _ _ Hp), !tokens_at_S.
      destruct (usable_path (Some p)) eqn:Hu.
      * assert (Ht : taken_as_path argv (S i)).
        { split; [lia|]. split; [by rewrite Nat.sub_1_r|by rewrite Hp]. }
        rewrite (decide_True (P := taken_as_path argv (S i))) by exact Ht.
        rewrite (decide_False (P := becomes_root argv (S i)))
          by (intros (_ & _ & H); by apply H).
        rewrite Hp, default_last_cons.
        apply (IH n ltac:(lia) (S (S i)) (set_destination p c));
          [lia|lia|].
        intros (_ & Hprev & _). rewrite Nat.sub_1_r in Hprev.
        simpl in Hprev. rewrite Hp in Hprev. injection Hprev as ->.
        discriminate Hu.
      * rewrite <- (drop_S _ _ _ Hp), <- !tokens_at_S.
        apply (IH (S n) ltac:(lia) (S i) c); [lia|lia|].
        intros (_ & _ & H). rewrite Hp, Hu in H. discriminate H.
    + rewrite (decide_True (P := becomes_root argv i)), Ha.
      2:{ split; [lia|]. split; [|exact Hno]. rewrite Ha. congruence. }
      destruct (IH n ltac:(lia) (S i) (push a c)) as [H1 H2]; [lia|lia| |].
      { intros (_ & Hprev & _). rewrite Nat.sub_1_r in Hprev.
        simpl in Hprev. rewrite Ha in Hprev. congruence. }
      rewrite H1, H2. simpl. by rewrite <- app_assoc.
Qed.

Lemma tokens_at_skip (P : nat → Prop) `{!∀ i, Decision (P i)} argv :
  (∀ i, P i → 2 ≤ i) →
  tokens_at P argv 0 (length argv) = tokens_at P argv 2 (length argv - 2).
Proof.
  intros HP.
  assert (H0 : ¬ P 0) by (intros Hx; apply HP in Hx; lia).
  assert (H1 : ¬ P 1) by (intros Hx; apply HP in Hx; lia).
  destruct argv as [|a [|b l]]; simpl.
  - reflexivity.
  - rewrite tokens_at_S, decide_False by exact H0. reflexivity.
  - rewrite !tokens_at_S, !decide_False by done.
    by rewrite Nat.sub_0_r.
Qed.

Lemma elem_of_tokens_at (P : nat → Prop) `{!∀ i, Decision (P i)} argv t :
  t ∈ tokens_at P argv 0 (length argv) ↔ ∃ i, argv !! i = Some t ∧ P i.
Proof.
  unfold tokens_at. rewrite list_elem_of_omap. split.
  - intros (i & _ & Hi). exists i. by case_decide.
  - intros (i & Ht & Hi). exists i. split.
    + apply elem_of_seq. apply lookup_lt_Some in Ht. lia.
    + by rewrite decide_True.
Qed.

(** What the argument loop computes, by the indices of the tokens. *)
Lemma parse_tokens N argv :
  rootFolderIds (parse N argv) = root_tokens argv
  ∧ destinationPath (parse N argv)
    = default (dirname N) (last (path_tokens argv)).
Proof.
  rewrite parse_scan. unfold root_tokens, path_tokens.
  rewrite (tokens_at_skip (becomes_root argv)) by (by intros i [? _]).
  rewrite (tokens_at_skip (taken_as_path argv)) by (intros i [? _]; lia).
  destruct (decide (2 ≤ length argv)) as [Hlen|Hlen].
  - apply (scan_tokens argv (length argv - 2) 2
             {| rootFolderIds := []; destinationPath := dirname N |});
      [lia|lia|]. intros [H _]. lia.
  - rewrite drop_ge by lia.
    by replace (length argv - 2) with 0 by lia.
Qed.

(** The last token taken as a path. *)
Lemma last_path_token argv i p :
  argv !! i = Some p → taken_as_path argv i →
  (∀ j, i < j → ¬ taken_as_path argv j) →
  last (path_tokens argv) = Some p.
Proof.
  intros Hp Ht Hlast. unfold path_tokens, tokens_at.
  pose proof (lookup_lt_Some _ _ _ Hp) as Hlt.
  replace (length argv) with (i + S (length argv - S i)) by lia.
  rewrite seq_app, omap_app. cbn [seq omap list_omap Nat.add].
  rewrite decide_True, Hp by exact Ht.
  assert (E : omap (λ j, if decide (taken_as_path argv j) then argv !! j
                         else None) (seq (S i) (length argv - S i)) = []).
  { generalize (length argv - S i). intros m.
    assert (∀ k, i < k →
      omap (λ j, if decide (taken_as_path argv j) then argv !! j else None)
        (seq k m) = []) as H; [|apply H; lia].
    induction m as [|m IH]; intros k Hk; [done|]. simpl.
    rewrite decide_False by (apply Hlast; lia). apply IH. lia. }
  rewrite E. apply last_snoc.
Qed.

End CliIndexFacts.

(** ** Paged listing *)

Section ReaderFacts.
Import Reader.

Lemma next_batch_full offset items :
  length items = 1000 → next_batch offset items = Some (offset + 1000).
Proof. intros H. unfold next_batch. by rewrite H. Qed.

Lemma next_batch_short offset items :
  length items ≠ 1000 → next_batch offset items = None.
Proof.
  intros H. unfold next_batch.
  destruct (length items =? 1000) eqn:E; [|reflexivity].
  apply Nat.eqb_eq in E. contradiction.
Qed.

(** Against a server that honours offset and limit, the loop started at
    page [k] asks for the pages [k], [k+1], ... up to the first short
    one and returns the children from page [k] on. *)
Lemma fetchItemsBatch_serve name children fuel : ∀ k allItems reqs,
  k * 1000 ≤ length children →
  length children / 1000 - k < fuel →
  fetchItemsBatch fuel (serve name children) (k * 1000) allItems reqs
  = Some (reqs ++ page_requests k (length children / 1000 - k + 1),
          inr (allItems ++ drop (k * 1000) children)).
Proof.
  induction fuel as [|fuel IH]; intros k allItems reqs Hk Hf; [lia|].
  cbn [fetchItemsBatch serve entries].
  set (page := take 1000 (drop (k * 1000) children)).
  assert (Hlen : length page = Nat.min 1000 (length children - k * 1000)).
  { unfold page. by rewrite length_take, length_drop. }
  destruct (decide (length page = 1000)) as [Hfull|Hshort].
  - rewrite next_batch_full by exact Hfull.
    assert (Hk' : (k + 1) * 1000 ≤ length children) by lia.
    assert (Hq : k + 1 ≤ length children / 1000).
    { apply Nat.div_le_lower_bound; lia. }
    replace (k * 1000 + 1000) with ((k + 1) * 1000) by lia.
    rewrite IH by lia.
    f_equal. f_equal.
    + rewrite <- app_assoc. f_equal.
      replace (length children / 1000 - k + 1)
        with (S (length children / 1000 - (k + 1) + 1)) by lia.
      unfold page_requests. cbn [seq map].
      replace (S k) with (k + 1) by lia. reflexivity.
    + f_equal. rewrite <- app_assoc. f_equal. unfold page.
      replace ((k + 1) * 1000) with (k * 1000 + 1000) by lia.
      rewrite <- drop_drop. apply take_drop.
  - rewrite next_batch_short by exact Hshort.
    assert (Hq : length children / 1000 = k).
    { assert (length children < (k + 1) * 1000) by lia.
      apply Nat.le_antisymm.
      - apply Nat.lt_succ_r. apply Nat.Div0.div_lt_upper_bound; lia.
      - apply Nat.div_le_lower_bound; lia. }
    rewrite Hq. replace (k - k + 1) with 1 by lia.
    f_equal. f_equal. f_equal. f_equal. unfold page.
    apply take_ge. rewrite length_drop. lia.
Qed.

End ReaderFacts.

(** ** The transition function: requests issued while walking *)

Section WalkFacts.
Import Sync SyncProps.

Lemma walk_refl P Q s : walk P Q s s.
Proof.
  split; try reflexivity; auto.
  exists []. by rewrite app_nil_r.
Qed.

(** Only the trace has grown. *)
Lemma walk_same P (Q : action → Prop) s s' ex :
  pending s' = pending s → next_rid s' = next_rid s →
  attempts s' = attempts s → runs s' = runs s → heap s' = heap s →
  pipes s' = pipes s → finished s' = finished s →
  trace s' = trace s ++ ex → Forall Q ex → walk P Q s s'.
Proof.
  intros Hp Hn Ha Hr Hh Hi Hf Ht Hex. split; try done.
  - lia.
  - intros rid k. rewrite Hp. by left.
  - by exists ex.
  - unfold fresh. by rewrite Hp, Hn.
Qed.

Lemma walk_trans P Q s1 s2 s3 :
  walk P Q s1 s2 → walk P Q s2 s3 → walk P Q s1 s3.
Proof.
  intros [A1 R1 H1 P1 F1 N1 K1 (ex1 & T1 & Q1) W1]
         [A2 R2 H2 P2 F2 N2 K2 (ex2 & T2 & Q2) W2].
  split; try congruence; [lia| | |].
  - intros rid k Hk. destruct (K2 rid k Hk) as [Hk'|HP]; [auto|by right].
  - exists (ex1 ++ ex2). rewrite T2, T1, app_assoc. split; [done|].
    by apply Forall_app.
  - intros Hf. destruct (W1 Hf) as [Hf1 Hs1]. destruct (W2 Hf1) as [Hf2 Hs2].
    split; [done|]. by transitivity (pending s2).
Qed.

Lemma walk_emit P (Q : action → Prop) a s : Q a → walk P Q s (emit a s).
Proof.
  intros Ha. by apply (walk_same P Q s (emit a s) [a]); [..|constructor].
Qed.

Lemma walk_mkdirSync P (Q : action → Prop) path r s :
  Q (AMkdir path r) → walk P Q s (mkdirSync path r s).
Proof.
  intros Ha.
  by apply (walk_same P Q s (mkdirSync path r s) [AMkdir path r]);
    [..|constructor].
Qed.

Lemma walk_request (P : kont → Prop) (Q : action → Prop) k a s :
  P k → Q (a (next_rid s)) → walk P Q s (request k a s).
Proof.
  intros Hk Ha. split; try reflexivity; [simpl; lia| | |].
  - intros rid k'. simpl. rewrite lookup_insert.
    case_decide; [intros [= <-]; by right|by left].
  - exists [a (next_rid s)]. split; [reflexivity|by constructor].
  - intros Hf. split.
    + intros rid k' Hk'. simpl in *.
      apply lookup_insert_Some in Hk' as [[<- _]|[_ Hk']]; [lia|].
      apply Hf in Hk'. lia.
    + simpl. apply insert_subseteq.
      destruct (pending s !! next_rid s) as [k'|] eqn:Hk'; [|done].
      apply Hf in Hk'. lia.
Qed.

Lemma walk_foldl {A} P Q (f : state → A → state) (l : list A) :
  (∀ s x, x ∈ l → walk P Q s (f s x)) → ∀ s, walk P Q s (foldl f s l).
Proof.
  induction l as [|x l IH]; intros Hf s; simpl; [apply walk_refl|].
  eapply walk_trans; [apply Hf; by left|].
  apply IH. intros s' y Hy. apply Hf. by right.
Qed.

Lemma walk_downloadFiles (P : kont → Prop) (Q : action → Prop)
    att path files s :
  (∀ file, file ∈ files → P (KStream att file path)) →
  (∀ rid file, file ∈ files → Q (AGetReadStream rid (item_id file))) →
  walk P Q s (downloadFiles att path files s).
Proof.
  intros HP HQ. unfold downloadFiles. apply walk_foldl.
  intros s' file Hfile. unfold downloadFile.
  destruct (negb _); [|apply walk_refl].
  apply walk_request; auto.
Qed.

Lemma walk_visitSubfolder (P : kont → Prop) (Q : action → Prop)
    N att path s sub :
  (∀ f p, P (KPage att f p 0 [])) →
  (∀ p, Q (AMkdir p false)) →
  (∀ rid f, Q (AFoldersGet rid f 1000 0)) →
  walk P Q s (visitSubfolder N att path s sub).
Proof.
  intros HP Hm Hg. unfold visitSubfolder, downloadFilesRecursively,
    fetchItemsBatch.
  eapply walk_trans; [|apply walk_request; auto].
  case_bool_decide; [apply walk_refl|by apply walk_mkdirSync].
Qed.

Lemma walk_processFolder (P : kont → Prop) (Q : action → Prop)
    N att folderId path allItems s :
  (∀ f p, P (KPage att f p 0 [])) →
  (∀ file, file ∈ new_files att allItems s → P (KStream att file path)) →
  Q (ALog (LogDownloading folderId)) →
  (∀ p, Q (AMkdir p false)) →
  (∀ rid f, Q (AFoldersGet rid f 1000 0)) →
  (∀ rid file, file ∈ new_files att allItems s →
     Q (AGetReadStream rid (item_id file))) →
  walk P Q s (processFolder N att folderId path allItems s).
Proof.
  intros HP HS Hl Hm Hg Hr. unfold processFolder.
  eapply walk_trans; [apply (walk_emit P Q _ s Hl)|].
  eapply walk_trans; [apply walk_downloadFiles; [apply HS|apply Hr]|].
  apply walk_foldl. intros s' sub _. by apply walk_visitSubfolder.
Qed.

Lemma plain_walk N att folderId path allItems s :
  walk (busy att) plain s (processFolder N att folderId path allItems s).
Proof. apply walk_processFolder; simpl; auto. Qed.

Lemma listed_no_new_files att allItems s :
  listed_in (ledger att s) allItems → new_files att allItems s = [].
Proof.
  intros Hl. unfold new_files.
  destruct (filter _ (filter _ allItems)) as [|file rest] eqn:E; [done|].
  assert (Hin : file ∈ file :: rest) by left.
  rewrite <- E in Hin.
  apply list_elem_of_filter in Hin as [Hnot Hin].
  apply list_elem_of_filter in Hin as [Hty Hin].
  exfalso. apply Hnot. by apply Hl.
Qed.

End WalkFacts.

(** ** Invariants of the transition function *)

Section InvFacts.
Import Sync SyncProps.

Lemma busy_same att att' k : busy att k → busy att' k → att' = att.
Proof. destruct k; simpl; intros; try done; congruence. Qed.

Lemma plain_outer root e (tr ex : list action) :
  Forall plain ex →
  ALogError (ErrRootInfo root e) ∈ tr ++ ex →
  ALogError (ErrRootInfo root e) ∈ tr.
Proof.
  intros Hex Hin. apply elem_of_app in Hin as [Hin|Hin]; [done|].
  rewrite Forall_forall in Hex. destruct (Hex _ Hin).
Qed.

Lemma plain_piped id (tr ex : list action) :
  Forall plain ex →
  (∃ p, APipe id p ∈ tr ++ ex) ↔ (∃ p, APipe id p ∈ tr).
Proof.
  intros Hex. split; intros [p Hp]; exists p.
  - apply elem_of_app in Hp as [Hp|Hp]; [done|].
    rewrite Forall_forall in Hex. destruct (Hex _ Hp).
  - apply elem_of_app. by left.
Qed.

Lemma piped_ext id s s' ex :
  trace s' = trace s ++ ex → Forall plain ex → piped id s' ↔ piped id s.
Proof.
  intros T Hex. unfold piped. rewrite T. split; intros [p Hp]; exists p.
  - apply elem_of_app in Hp as [Hp|Hp]; [done|].
    rewrite Forall_forall in Hex. destruct (Hex _ Hp).
  - apply elem_of_app. by left.
Qed.

Lemma outer_ext root e s s' ex :
  trace s' = trace s ++ ex → Forall plain ex →
  ALogError (ErrRootInfo root e) ∈ trace s' →
  ALogError (ErrRootInfo root e) ∈ trace s.
Proof.
  intros T Hex Hin. rewrite T in Hin.
  apply elem_of_app in Hin as [Hin|Hin]; [done|].
  rewrite Forall_forall in Hex. destruct (Hex _ Hin).
Qed.

Lemma marked_heap id s s' : heap s' = heap s → marked id s' ↔ marked id s.
Proof. intros H. unfold marked. by rewrite H. Qed.

(** Requests and plain actions keep the invariant. *)
Lemma inv_walk (P : kont → Prop) s s' :
  (∀ k, P k → ∃ att, busy att k ∧ att < length (attempts s)) →
  walk P plain s s' → inv s → inv s'.
Proof.
  intros HP [A R H Pp F Nn K (ex & T & Hex) _] I.
  split; rewrite ?A, ?R, ?H.
  - intros rid run root Hk. destruct (K _ _ Hk) as [Hk'|Hk'].
    + eapply inv_info; eauto.
    + destruct (HP _ Hk') as (att & Hb & _). destruct Hb.
  - intros rid run root p l Hk. destruct (K _ _ Hk) as [Hk'|Hk'].
    + eapply inv_timer; eauto.
    + destruct (HP _ Hk') as (att & Hb & _). destruct Hb.
  - apply (inv_running _ I).
  - apply (inv_fresh _ I).
  - intros rid k att Hk Hb. destruct (K _ _ Hk) as [Hk'|Hk'].
    + eapply inv_busy; eauto.
    + destruct (HP _ Hk') as (att0 & Hb0 & Hlt).
      by rewrite (busy_same _ _ _ Hb0 Hb).
  - apply (inv_ledger _ I).
  - intros run e Hr. destruct (inv_logged _ I _ _ Hr) as [root Hin].
    exists root. rewrite T. apply elem_of_app. by left.
  - intros id. rewrite (marked_heap id s s' H), (piped_ext id s s' ex T Hex).
    apply (inv_marked _ I).
Qed.

Lemma inv_emit a s : plain a → inv s → inv (emit a s).
Proof.
  intros Ha. apply (inv_walk (λ _, False)); [tauto|by apply walk_emit].
Qed.

Lemma inv_mkdirSync path r s : inv s → inv (mkdirSync path r s).
Proof.
  apply (inv_walk (λ _, False)); [tauto|by apply walk_mkdirSync].
Qed.

Lemma inv_processFolder N att folderId path allItems s :
  att < length (attempts s) → inv s →
  inv (processFolder N att folderId path allItems s).
Proof.
  intros Hlt. apply (inv_walk (busy att)); [eauto|apply plain_walk].
Qed.

Lemma inv_fetchItemsBatch att folderId path offset allItems s :
  att < length (attempts s) → inv s →
  inv (fetchItemsBatch att folderId path offset allItems s).
Proof.
  intros Hlt. apply (inv_walk (busy att)); [eauto|].
  apply walk_request; simpl; auto.
Qed.

Lemma inv_take rid s : inv s → inv (take_pending rid s).
Proof.
  intros I. split; simpl; try apply I.
  - intros rid' run root Hk. apply lookup_delete_Some in Hk as [_ Hk].
    eapply inv_info; eauto.
  - intros rid' run root p l Hk. apply lookup_delete_Some in Hk as [_ Hk].
    eapply inv_timer; eauto.
  - intros rid' k att Hk. apply lookup_delete_Some in Hk as [_ Hk].
    eapply inv_busy; eauto.
Qed.

Lemma inv_alloc s : inv s → inv (set_heap (λ h, h ++ [[]]) s).
Proof.
  intros I. split; simpl; try apply I.
  - intros rid run root p l Hk.
    destruct (inv_timer _ I _ _ _ _ _ Hk) as [Hr Hl].
    split; [done|]. rewrite length_app. simpl. lia.
  - eapply Forall_impl; [apply (inv_ledger _ I)|].
    intros a Ha. simpl in Ha. rewrite length_app. simpl. lia.
  - intros id. rewrite <- (inv_marked _ I id). unfold marked. simpl.
    split; intros (l & Hl & Hid).
    + apply elem_of_app in Hl as [Hl|Hl]; [by exists l|].
      apply list_elem_of_singleton in Hl. subst l. inversion Hid.
    + exists l. split; [|done]. apply elem_of_app. by left.
Qed.

Lemma fmap_run_status att st (l : list attempt) :
  a_run <$> alter (λ a, {| a_run := a_run a; a_root := a_root a;
                            a_path := a_path a; a_ledger := a_ledger a;
                            a_status := st |}) att l
  = a_run <$> l.
Proof.
  revert att. induction l as [|a l IH]; intros [|att]; simpl; [done..|].
  f_equal. apply IH.
Qed.

Lemma inv_status att st s : st ≠ Running → inv s → inv (set_status att st s).
Proof.
  intros Hst I. split; simpl; try apply I.
  - intros att' a Ha Hrun.
    destruct (decide (att' = att)) as [->|Hne].
    + rewrite list_lookup_alter_eq in Ha.
      destruct (attempts s !! att); simpl in Ha; [|done].
      injection Ha as <-. simpl in Hrun. contradiction.
    + rewrite list_lookup_alter_ne in Ha by done. eapply inv_running; eauto.
  - intros run rid Hr. apply Forall_alter; [eapply inv_fresh; eauto|].
    intros a _ Ha. exact Ha.
  - intros rid k att' Hk Hb. rewrite length_alter. eapply inv_busy; eauto.
  - apply Forall_alter; [apply I|]. intros a _ Ha. exact Ha.
Qed.

(** Once a running call stops running, its root has nothing left. *)
Lemma idle_status att a st s :
  inv s → attempts s !! att = Some a → a_status a = Running →
  st ≠ Running → idle (a_run a) (set_status att st s).
Proof.
  intros I Ha Hrun Hst.
  pose proof (inv_running _ I _ _ Ha Hrun) as Hc.
  split; simpl.
  - intros rid k Hk Htok. destruct k; simpl in Htok; try done; subst.
    + rewrite (inv_info _ I _ _ _ Hk) in Hc. done.
    + destruct (inv_timer _ I _ _ _ _ _ Hk) as [Hw _].
      rewrite Hw in Hc. done.
  - apply Forall_lookup. intros att' a' Ha' Hsame.
    destruct (decide (att' = att)) as [->|Hne].
    + rewrite list_lookup_alter_eq, Ha in Ha'. simpl in Ha'.
      injection Ha' as <-. simpl. exact Hst.
    + rewrite list_lookup_alter_ne in Ha' by done. intros Hrun'.
      pose proof (inv_running _ I _ _ Ha' Hrun') as Hc'.
      rewrite Hsame, Hc in Hc'. congruence.
Qed.

(** Once a root's folder request or timer is taken, its root has
    nothing left. *)
Lemma idle_take rid k run s :
  inv s → pending s !! rid = Some k → token run k →
  idle run (take_pending rid s).
Proof.
  intros I Hk Htok.
  assert (Hc : runs s !! run = Some (InfoPending rid)
               ∨ runs s !! run = Some (Waiting rid)).
  { destruct k; simpl in Htok; try done; subst.
    - left. eapply inv_info; eauto.
    - right. eapply inv_timer; eauto. }
  split; simpl.
  - intros rid' k' Hk' Htok'. apply lookup_delete_Some in Hk' as [Hne Hk'].
    destruct k'; simpl in Htok'; try done; subst.
    + pose proof (inv_info _ I _ _ _ Hk'). destruct Hc; congruence.
    + destruct (inv_timer _ I _ _ _ _ _ Hk') as [Hw _].
      destruct Hc; congruence.
  - apply Forall_lookup. intros att a Ha Hsame Hrun.
    pose proof (inv_running _ I _ _ Ha Hrun) as Hc'.
    rewrite Hsame in Hc'. destruct Hc; congruence.
Qed.

Lemma idle_ext run s s' :
  pending s' = pending s → attempts s' = attempts s →
  idle run s → idle run s'.
Proof. intros Hp Ha [H1 H2]. split; by rewrite ?Hp, ?Ha. Qed.

(** A root whose chain has ended has nothing left. *)
Lemma terminal_idle run c s :
  inv s → runs s !! run = Some c → terminal c → idle run s.
Proof.
  intros I Hc Ht. split.
  - intros rid k Hk Htok. destruct k; simpl in Htok; try done; subst.
    + rewrite (inv_info _ I _ _ _ Hk) in Hc. injection Hc as <-. done.
    + destruct (inv_timer _ I _ _ _ _ _ Hk) as [Hw _].
      rewrite Hw in Hc. injection Hc as <-. done.
  - apply Forall_lookup. intros att a Ha Hsame Hrun.
    pose proof (inv_running _ I _ _ Ha Hrun) as Hc'.
    rewrite Hsame, Hc in Hc'. injection Hc' as ->. done.
Qed.

End InvFacts.

(** ** The chain of one root *)

Section ChainFacts.
Import Sync SyncProps.

Lemma stable_refl s : stable s s.
Proof. intros run c Hc Ht. done. Qed.

Lemma stable_trans s1 s2 s3 : stable s1 s2 → stable s2 s3 → stable s1 s3.
Proof.
  intros H12 H23 run c Hc Ht.
  destruct (H12 _ _ Hc Ht) as [Hc2 Hl2].
  destruct (H23 _ _ Hc2 Ht) as [Hc3 Hl3].
  split; [done|congruence].
Qed.

Lemma stable_same s s' :
  runs s' = runs s → a_run <$> attempts s' = a_run <$> attempts s →
  stable s s'.
Proof.
  intros Hr Ha run c Hc Ht. unfold launched. by rewrite Hr, Ha.
Qed.

Lemma stable_walk P Q s s' : walk P Q s s' → stable s s'.
Proof. intros W. apply stable_same; by rewrite ?(walk_runs _ _ _ _ W), ?(walk_attempts _ _ _ _ W). Qed.

Lemma stable_status att st s : stable s (set_status att st s).
Proof. apply stable_same; [done|]. simpl. apply fmap_run_status. Qed.

Lemma stable_emit a s : stable s (emit a s).
Proof. by apply stable_same. Qed.

Lemma stable_request k f s : stable s (request k f s).
Proof. by apply stable_same. Qed.

Lemma stable_take rid s : stable s (take_pending rid s).
Proof. by apply stable_same. Qed.

Lemma stable_chain run0 c0 c s :
  runs s !! run0 = Some c0 → ¬ terminal c0 → stable s (set_chain run0 c s).
Proof.
  intros H0 Hn run c' Hc Ht. split; [|done]. simpl.
  rewrite list_lookup_insert_ne; [done|]. intros ->.
  rewrite H0 in Hc. injection Hc as ->. contradiction.
Qed.

Lemma launched_snoc run a s :
  a_run a ≠ run →
  launched run (set_attempts (λ l, l ++ [a]) s) = launched run s.
Proof.
  intros Hne. unfold launched. simpl.
  rewrite fmap_app, filter_app. simpl.
  rewrite filter_cons_False by done. rewrite filter_nil.
  by rewrite app_nil_r.
Qed.

(** Moving the chain of a root that has nothing left. *)
Lemma inv_chain run c c0 s :
  inv s → idle run s → runs s !! run = Some c0 → ¬ terminal c0 →
  (∀ rid, c ≠ InfoPending rid) →
  (∀ e, c = Failed e → ∃ root, ALogError (ErrDownload root e) ∈ trace s) →
  inv (set_chain run c s).
Proof.
  intros I [Hp Ha] H0 Hn Hc1 Hc3. split; simpl; try apply I.
  - intros rid r root Hk.
    rewrite list_lookup_insert_ne; [eapply inv_info; eauto|].
    intros ->. by apply (Hp _ _ Hk).
  - intros rid r root p l Hk.
    rewrite list_lookup_insert_ne; [eapply inv_timer; eauto|].
    intros ->. by apply (Hp _ _ Hk).
  - intros att a Hatt Hrun.
    rewrite list_lookup_insert_ne; [eapply inv_running; eauto|].
    intros ->. rewrite Forall_lookup in Ha. by apply (Ha _ _ Hatt).
  - intros r rid Hr.
    apply list_lookup_insert_Some in Hr as [(-> & -> & _)|[Hne Hr]].
    + by destruct (Hc1 rid).
    + eapply inv_fresh; eauto.
  - intros r e Hr.
    apply list_lookup_insert_Some in Hr as [(-> & -> & _)|[Hne Hr]].
    + by apply Hc3.
    + eapply inv_logged; eauto.
Qed.

(** The report of lines 168-170. *)
Lemma inv_emit_outer root e s :
  inv s → inv (emit (ALogError (ErrRootInfo root e)) s).
Proof.
  intros I. split; simpl; try apply I.
  - intros r e' Hr'. destruct (inv_logged _ I _ _ Hr') as [root' Hin].
    exists root'. apply elem_of_app. by left.
  - intros id. transitivity (marked id s); [reflexivity|].
    rewrite (inv_marked _ I id). unfold piped. simpl.
    split; intros [p Hp]; exists p.
    + apply elem_of_app. by left.
    + apply elem_of_app in Hp as [Hp|Hp]; [done|].
      apply list_elem_of_singleton in Hp. done.
Qed.

(** Arming the retry timer of a root whose chain waits on it. *)
Lemma inv_add_timer run root path l f s :
  inv s → runs s !! run = Some (Waiting (next_rid s)) →
  l < length (heap s) → plain (f (next_rid s)) →
  inv (request (KTimer run root path l) f s).
Proof.
  intros I Hr Hl Hf. split; simpl; try apply I.
  - intros rid r root' Hk.
    apply lookup_insert_Some in Hk as [[_ [=]]|[_ Hk]].
    eapply inv_info; eauto.
  - intros rid r root' p' l' Hk.
    apply lookup_insert_Some in Hk as [[<- [= <- <- <- <-]]|[_ Hk]]; [done|].
    eapply inv_timer; eauto.
  - intros rid k att Hk Hb.
    apply lookup_insert_Some in Hk as [[_ <-]|[_ Hk]]; [done|].
    eapply inv_busy; eauto.
  - intros r e Hr'. destruct (inv_logged _ I _ _ Hr') as [root' Hin].
    exists root'. apply elem_of_app. by left.
  - intros id. transitivity (marked id s); [reflexivity|].
    rewrite (inv_marked _ I id). symmetry.
    apply plain_piped. by constructor.
Qed.

(** Recording the call of a root whose chain waits on it. *)
Lemma inv_add_attempt a s :
  inv s → runs s !! a_run a = Some (Attempting (length (attempts s))) →
  a_ledger a < length (heap s) →
  inv (set_attempts (λ l, l ++ [a]) s).
Proof.
  intros I Hr Hl. split; simpl; try apply I.
  - intros att a' Ha' Hrun.
    apply lookup_snoc_Some in Ha' as [[Hlt Ha']|[-> ->]]; [|done].
    eapply inv_running; eauto.
  - intros r rid Hr'. apply Forall_app. split; [eapply inv_fresh; eauto|].
    constructor; [|constructor]. intros Heq. congruence.
  - intros rid k att Hk Hb. rewrite length_app. simpl.
    pose proof (inv_busy _ I _ _ _ Hk Hb). lia.
  - apply Forall_app. split; [apply I|]. by constructor.
Qed.

(** [retryDownload] for a root that has nothing left. *)
Lemma retryDownload_ok run root path l c0 s :
  inv s → idle run s → runs s !! run = Some c0 → ¬ terminal c0 →
  l < length (heap s) →
  inv (retryDownload run root path l s)
  ∧ stable s (retryDownload run root path l s).
Proof.
  intros I Hi H0 Hn Hl.
  set (a := {| a_run := run; a_root := root; a_path := path;
               a_ledger := l; a_status := Running |}).
  set (s1 := set_chain run (Attempting (length (attempts s))) s).
  set (s2 := set_attempts (λ l, l ++ [a]) s1).
  assert (I1 : inv s1) by (eapply inv_chain; eauto; done).
  assert (Hr1 : runs s1 !! run = Some (Attempting (length (attempts s)))).
  { simpl. apply list_lookup_insert_eq. eapply lookup_lt_Some; eauto. }
  assert (I2 : inv s2) by (apply inv_add_attempt; done).
  split.
  - change (inv (downloadFilesRecursively (length (attempts s)) root path s2)).
    apply inv_fetchItemsBatch; [|done].
    simpl. rewrite length_app. simpl. lia.
  - intros r c Hc Ht. split.
    + simpl. rewrite list_lookup_insert_ne; [done|]. intros ->.
      rewrite H0 in Hc. injection Hc as ->. contradiction.
    + change (launched r (set_attempts (λ l, l ++ [a]) s) = launched r s).
      apply launched_snoc. simpl. intros ->.
      rewrite H0 in Hc. injection Hc as ->. contradiction.
Qed.

(** The callback of lines 73-77 marks the file it pipes. *)
Lemma inv_streamOpened N att file path s :
  att < length (attempts s) → inv s →
  inv (streamOpened att file path N s).
Proof.
  intros Hlt I. unfold streamOpened. simpl.
  destruct (lookup_lt_is_Some_2 _ _ Hlt) as [a Ha]. rewrite Ha.
  pose proof (inv_ledger _ I) as Hled. rewrite Forall_lookup in Hled.
  pose proof (Hled _ _ Ha) as Hl.
  destruct (lookup_lt_is_Some_2 _ _ Hl) as [l0 Hl0].
  split; simpl; try apply I.
  - intros rid r root p l Hk. rewrite length_alter. eapply inv_timer; eauto.
  - rewrite length_alter. apply I.
  - intros r e Hr. destruct (inv_logged _ I _ _ Hr) as [root Hin].
    exists root. rewrite !elem_of_app. by left; left.
  - intros id. unfold marked, piped. simpl.
    pose proof (inv_marked _ I id) as Hm. unfold marked, piped in Hm.
    split.
    + intros (l & Hin & Hid).
      apply list_elem_of_lookup in Hin as [j Hj].
      destruct (decide (j = a_ledger a)) as [->|Hne].
      * rewrite list_lookup_alter_eq, Hl0 in Hj. simpl in Hj.
        injection Hj as <-.
        apply elem_of_app in Hid as [Hid|Hid].
        -- destruct (proj1 Hm) as [p Hp].
           { exists l0. split; [|done]. eapply list_elem_of_lookup_2; eauto. }
           exists p. rewrite !elem_of_app. by left; left.
        -- apply list_elem_of_singleton in Hid. subst id.
           eexists. rewrite !elem_of_app. right.
           apply list_elem_of_singleton. reflexivity.
      * rewrite list_lookup_alter_ne in Hj by done.
        destruct (proj1 Hm) as [p Hp].
        { exists l. split; [|done]. eapply list_elem_of_lookup_2; eauto. }
        exists p. rewrite !elem_of_app. by left; left.
    + intros (p & Hp). rewrite <- app_assoc in Hp.
      apply elem_of_app in Hp as [Hp|Hp].
      * destruct (proj2 Hm) as (l & Hin & Hid); [by exists p|].
        apply list_elem_of_lookup in Hin as [j Hj].
        destruct (decide (j = a_ledger a)) as [->|Hne].
        -- exists (l0 ++ [item_id file]). split.
           ++ apply list_elem_of_lookup. exists (a_ledger a).
              by rewrite list_lookup_alter_eq, Hl0.
           ++ rewrite Hl0 in Hj. injection Hj as ->.
              apply elem_of_app. by left.
        -- exists l. split; [|done]. apply list_elem_of_lookup. exists j.
           by rewrite list_lookup_alter_ne.
      * apply elem_of_cons in Hp as [Hp|Hp]; [done|].
        apply list_elem_of_singleton in Hp. injection Hp as -> ->.
        exists (l0 ++ [item_id file]). split.
        -- apply list_elem_of_lookup. exists (a_ledger a).
           by rewrite list_lookup_alter_eq, Hl0.
        -- apply elem_of_app. right. by apply list_elem_of_singleton.
Qed.

Lemma stable_streamOpened N att file path s :
  stable s (streamOpened att file path N s).
Proof.
  apply stable_same; unfold streamOpened; simpl;
    by destruct (attempts s !! att).
Qed.

Lemma resolve_ok att s :
  inv s → inv (resolve att s) ∧ stable s (resolve att s).
Proof.
  intros I. unfold resolve.
  destruct (attempts s !! att) as [a|] eqn:Ha;
    [|split; [done|apply stable_refl]].
  destruct (a_status a) eqn:Hrun; try (split; [done|apply stable_refl]).
  destruct (quiet att s); [|split; [done|apply stable_refl]].
  pose proof (inv_running _ I _ _ Ha Hrun) as H0.
  assert (Hi : idle (a_run a) (set_status att Resolved s))
    by (eapply idle_status; eauto; done).
  assert (I1 : inv (set_status att Resolved s)) by (by apply inv_status).
  split.
  - eapply inv_chain; [apply inv_emit; [done|exact I1]| | | | |];
      [eapply idle_ext; [| |exact Hi]; done|exact H0|simpl; tauto|done..].
  - eapply stable_trans; [apply stable_status|].
    eapply stable_trans; [apply stable_emit|].
    eapply stable_chain; [exact H0|simpl; tauto].
Qed.

Lemma reject_ok att e s :
  inv s → inv (reject att e s) ∧ stable s (reject att e s).
Proof.
  intros I. unfold reject.
  destruct (attempts s !! att) as [a|] eqn:Ha;
    [|split; [done|apply stable_refl]].
  destruct (a_status a) eqn:Hrun; try (split; [done|apply stable_refl]).
  pose proof (inv_running _ I _ _ Ha Hrun) as H0.
  assert (Hl : a_ledger a < length (heap s)).
  { pose proof (inv_ledger _ I) as Hled. rewrite Forall_lookup in Hled. eauto. }
  set (s0 := set_status att (RejectedWith e) s).
  assert (Hi : idle (a_run a) s0) by (eapply idle_status; eauto; done).
  assert (I0 : inv s0) by (by apply inv_status).
  unfold retryCatch. destruct (test_throws e); cbn [conclude].
  { split.
    - apply inv_emit_outer.
      eapply inv_chain; [exact I0|exact Hi|exact H0|simpl; tauto|done..].
    - eapply stable_trans; [apply (stable_status att (RejectedWith e))|].
      eapply stable_trans; [|apply stable_emit].
      eapply stable_chain; [exact H0|simpl; tauto]. }
  destruct (rate_limited e) as [h|]; cbn [conclude].
  - set (s2 := emit (ALog (LogRateLimited (a_root a) (parseInt h)))
                 (emit (ALogError (ErrRateLimit e)) s0)).
    assert (I2 : inv s2) by (do 2 (apply inv_emit; [done|]); exact I0).
    assert (I3 : inv (set_chain (a_run a) (Waiting (next_rid s2)) s2)).
    { eapply inv_chain; [exact I2| | | | |];
        [eapply idle_ext; [| |exact Hi]; done|exact H0|simpl; tauto|done..]. }
    split.
    + apply (inv_add_timer (a_run a) (a_root a) (a_path a) (a_ledger a)
               (λ rid, ASetTimeout rid (jsmul (parseInt h) 1000))
               (set_chain (a_run a) (Waiting (next_rid s2)) s2)); [exact I3| |done..].
      simpl. apply list_lookup_insert_eq. eapply lookup_lt_Some; eauto.
    + eapply stable_trans; [apply (stable_status att (RejectedWith e))|].
      eapply stable_trans; [apply stable_emit|].
      eapply stable_trans; [apply stable_emit|].
      eapply stable_trans; [apply stable_request|].
      eapply stable_chain; [exact H0|simpl; tauto].
  - split.
    + eapply inv_chain; [apply inv_emit; [done|exact I0]| | | | |];
        [eapply idle_ext; [| |exact Hi]; done|exact H0|simpl; tauto|done..|].
      intros e' [= <-]. exists (a_root a). simpl.
      apply elem_of_app. right. by apply list_elem_of_singleton.
    + eapply stable_trans; [apply (stable_status att (RejectedWith e))|].
      eapply stable_trans; [apply stable_emit|].
      eapply stable_chain; [exact H0|simpl; tauto].
Qed.

Lemma step_ok N dest s ev :
  inv s → inv (step N dest s ev) ∧ stable s (step N dest s ev).
Proof.
  intros I. unfold step.
  destruct ev as [rid r|rid r|rid|k].
  - destruct (pending s !! rid) as [k|] eqn:Hk;
      [|split; [done|apply stable_refl]].
    pose proof (inv_take rid s I) as I1.
    destruct k as [run root|att folderId path offset allItems| |];
      try (split; [done|apply stable_refl]).
    + pose proof (inv_info _ I _ _ _ Hk) as H0.
      assert (Hi : idle run (take_pending rid s))
        by (eapply idle_take; eauto; done).
      destruct r as [e|info].
      * assert (I2 : inv (set_chain run (InfoFailed e) (take_pending rid s))).
        { eapply inv_chain; [exact I1|exact Hi|exact H0|simpl; tauto|done..]. }
        split.
        -- apply inv_emit_outer, I2.
        -- eapply stable_trans; [apply (stable_take rid)|].
           eapply stable_trans; [|apply stable_emit].
           eapply stable_chain; [exact H0|simpl; tauto].
      * unfold rootInfo.
        set (p := path_join N dest (folder_name info)).
        set (s1 := mkdirSync p true (take_pending rid s)).
        destruct (retryDownload_ok run root p (length (heap s1))
                    (InfoPending rid) (set_heap (λ h, h ++ [[]]) s1))
          as [I2 S2];
          [apply inv_alloc, inv_mkdirSync, I1
          |eapply idle_ext; [| |exact Hi]; done
          |exact H0|simpl; tauto| |].
        { simpl. rewrite length_app. simpl. lia. }
        split; [exact I2|].
        eapply stable_trans; [|exact S2]. by apply stable_same.
    + assert (Hlt : att < length (attempts s))
        by (eapply inv_busy; [exact I|exact Hk|done]).
      destruct r as [e|info].
      { destruct (reject_ok att e _ I1) as [I2 S2]. split; [exact I2|].
        eapply stable_trans; [apply (stable_take rid)|exact S2]. }
      destruct (next_batch offset (entries info)).
      * split; [by apply inv_fetchItemsBatch|].
        eapply stable_trans; [apply (stable_take rid)|].
        apply stable_request.
      * destruct (resolve_ok att
          (processFolder N att folderId path (allItems ++ entries info)
             (take_pending rid s))) as [I2 S2].
        { by apply inv_processFolder. }
        split; [exact I2|].
        eapply stable_trans; [|exact S2].
        eapply stable_trans; [apply (stable_take rid)|].
        eapply stable_walk. apply plain_walk.
  - destruct (pending s !! rid) as [k|] eqn:Hk;
      [|split; [done|apply stable_refl]].
    pose proof (inv_take rid s I) as I1.
    destruct k as [| |att file path|]; try (split; [done|apply stable_refl]).
    assert (Hlt : att < length (attempts s))
      by (eapply inv_busy; [exact I|exact Hk|done]).
    destruct r as [e|].
    { destruct (reject_ok att e _ I1) as [I2 S2]. split; [exact I2|].
      eapply stable_trans; [apply (stable_take rid)|exact S2]. }
    destruct (resolve_ok att (streamOpened att file path N (take_pending rid s)))
      as [I2 S2].
    { by apply inv_streamOpened. }
    split; [exact I2|].
    eapply stable_trans; [|exact S2].
    eapply stable_trans; [apply (stable_take rid)|].
    apply stable_streamOpened.
  - destruct (pending s !! rid) as [k|] eqn:Hk;
      [|split; [done|apply stable_refl]].
    pose proof (inv_take rid s I) as I1.
    destruct k as [| | |run root path l]; try (split; [done|apply stable_refl]).
    destruct (inv_timer _ I _ _ _ _ _ Hk) as [H0 Hl].
    destruct (retryDownload_ok run root path l (Waiting rid)
                (take_pending rid s)) as [I2 S2];
      [exact I1|eapply idle_take; eauto; done|exact H0|simpl; tauto|exact Hl|].
    split; [exact I2|].
    eapply stable_trans; [apply (stable_take rid)|exact S2].
  - case_bool_decide; [|split; [done|apply stable_refl]].
    split; [|by apply stable_same].
    split; simpl; apply I.
Qed.

Lemma run_events_ok N dest evs : ∀ s,
  inv s → inv (run_events N dest s evs) ∧ stable s (run_events N dest s evs).
Proof.
  induction evs as [|ev evs IH]; intros s I; simpl.
  - split; [done|apply stable_refl].
  - destruct (step_ok N dest s ev I) as [I1 S1].
    destruct (IH _ I1) as [I2 S2].
    split; [exact I2|]. eapply stable_trans; eauto.
Qed.

Lemma launch_inv s root :
  inv s → attempts s = [] →
  inv (launch s root) ∧ attempts (launch s root) = [].
Proof.
  intros I Ha. split; [|exact Ha]. split; simpl; rewrite ?Ha.
  - intros rid run root' Hk.
    apply lookup_insert_Some in Hk as [[<- [= <- <-]]|[_ Hk]].
    + by rewrite lookup_app_r, Nat.sub_diag.
    + apply lookup_app_l_Some. eapply inv_info; eauto.
  - intros rid run root' p l Hk.
    apply lookup_insert_Some in Hk as [[_ [=]]|[_ Hk]].
    destruct (inv_timer _ I _ _ _ _ _ Hk). split; [|done].
    by apply lookup_app_l_Some.
  - intros att a Hatt. done.
  - intros. constructor.
  - intros rid k att Hk Hb.
    apply lookup_insert_Some in Hk as [[_ <-]|[_ Hk]]; [done|].
    pose proof (inv_busy _ I _ _ _ Hk Hb) as Hlt. by rewrite Ha in Hlt.
  - constructor.
  - intros r e Hr. apply lookup_app_Some in Hr as [Hr|[_ Hr]].
    + destruct (inv_logged _ I _ _ Hr) as [root' Hin].
      exists root'. apply elem_of_app. by left.
    + destruct (r - length (runs s)) as [|[|?]]; simpl in Hr; done.
  - intros id. transitivity (marked id s); [reflexivity|].
    rewrite (inv_marked _ I id). symmetry.
    apply plain_piped. by constructor.
Qed.

Lemma empty_inv dirs0 : inv (empty_state dirs0).
Proof.
  split; simpl; try done; try constructor.
  - intros (l & Hl & _). inversion Hl.
  - intros (p & Hp). inversion Hp.
Qed.

Lemma boot_inv dirs0 roots : inv (boot dirs0 roots).
Proof.
  unfold boot.
  assert (H : ∀ s, inv s → attempts s = [] → inv (foldl launch s roots)).
  { induction roots as [|root roots IH]; intros s I Ha; simpl; [done|].
    destruct (launch_inv s root I Ha). by apply IH. }
  apply H; [apply empty_inv|done].
Qed.

(** Every state the program reaches satisfies the invariant. *)
Lemma reach_inv N dest dirs0 roots evs :
  inv (run_events N dest (boot dirs0 roots) evs).
Proof. apply run_events_ok, boot_inv. Qed.

End ChainFacts.

(** ** Single transitions *)

Section StepFacts.
Import Sync SyncProps.

Lemma step_fails N dest s rid k att e :
  pending s !! rid = Some k → busy att k →
  step N dest s (fails rid k e) = reject att e (take_pending rid s).
Proof.
  intros Hk Hb. destruct k; simpl in Hb; try done; subst;
    unfold fails, step; by rewrite Hk.
Qed.


Lemma with_response_spec e : with_response e ↔ test_throws e = false.
Proof.
  destruct e as [code [headers|]|msg]; simpl; try (split; [done|]).
  - intros _ code' [=].
  - split.
    + intros H. apply Nat.eqb_neq. by apply H.
    + intros H code' [= <-]. by apply Nat.eqb_neq.
  - intros _ code' [=].
Qed.

Lemma reject_throws att a e s :
  attempts s !! att = Some a → a_status a = Running →
  test_throws e = true →
  reject att e s
  = emit (ALogError (ErrRootInfo (a_root a) type_error))
      (set_chain (a_run a) (WrapperRejected type_error)
         (set_status att (RejectedWith e) s)).
Proof.
  intros Ha Hrun He. unfold reject, retryCatch. by rewrite Ha, Hrun, He.
Qed.

Lemma reject_terminal att a e s :
  attempts s !! att = Some a → a_status a = Running →
  test_throws e = false ∧ rate_limited e = None →
  reject att e s
  = set_chain (a_run a) (Failed e)
      (emit (ALogError (ErrDownload (a_root a) e))
         (set_status att (RejectedWith e) s)).
Proof.
  intros Ha Hrun [Ht He]. unfold reject, retryCatch.
  by rewrite Ha, Hrun, Ht, He.
Qed.


Lemma no_retry_header_spec e :
  no_retry_header e ↔ test_throws e = false ∧ rate_limited e = None.
Proof.
  destruct e as [code [headers|]|msg]; simpl; [| |done].
  - destruct (Nat.eqb_spec code 429) as [->|Hne].
    + destruct (headers !! "retry-after") as [h|] eqn:Hh.
      * case_bool_decide as Hempty.
        -- subst h. split; [done|]. intros _. right. by right.
        -- split; [|by intros [_ ?]]. intros [?|[?|[= ?]]]; done.
      * split; [done|]. intros _. right. by left.
    + split; [done|]. intros _. by left.
  - destruct (Nat.eqb_spec code 429) as [->|Hne].
    + split; [done|]. by intros [? _].
    + done.
Qed.


Lemma heap_resolve att s : heap (resolve att s) = heap s.
Proof.
  unfold resolve. destruct (attempts s !! att) as [a|]; [|done].
  destruct (a_status a); [|done..]. by destruct (quiet att s).
Qed.

Lemma trace_resolve att s : ∃ ex, trace (resolve att s) = trace s ++ ex.
Proof.
  unfold resolve. destruct (attempts s !! att) as [a|];
    [|exists []; by rewrite app_nil_r].
  destruct (a_status a); try (exists []; by rewrite app_nil_r).
  destruct (quiet att s); [|exists []; by rewrite app_nil_r].
  by eexists.
Qed.

Lemma heap_reject att e s : heap (reject att e s) = heap s.
Proof.
  unfold reject, retryCatch. destruct (attempts s !! att) as [a|]; [|done].
  destruct (a_status a); [|done..].
  destruct (test_throws e); [done|]. by destruct (rate_limited e).
Qed.




Lemma retryDownload_fields run root path l s :
  let s' := retryDownload run root path l s in
  pending s'
  = <[next_rid s := KPage (length (attempts s)) root path 0 []]> (pending s)
  ∧ next_rid s' = S (next_rid s)
  ∧ attempts s'
    = attempts s ++ [{| a_run := run; a_root := root; a_path := path;
                        a_ledger := l; a_status := Running |}]
  ∧ heap s' = heap s
  ∧ runs s' = <[run := Attempting (length (attempts s))]> (runs s)
  ∧ trace s' = trace s ++ [AFoldersGet (next_rid s) root 1000 0].
Proof. done. Qed.


End StepFacts.

(** ** A walk during which every listed file is already marked *)

Section CoveredFacts.
Import Sync SyncProps.

Lemma covered_kont_mono files n m k :
  n ≤ m → covered_kont files n k → covered_kont files m k.
Proof. intros Hle. destruct k; simpl; try done. intros [? ?]. split; [lia|done]. Qed.

Lemma covered_ext files s s' :
  covered files s → heap s' = heap s →
  length (attempts s) ≤ length (attempts s') →
  Forall (λ a, a_ledger a = 0) (attempts s') →
  (∃ ex, trace s' = trace s ++ ex ∧ Forall (λ a, ¬ transfer a) ex) →
  (∀ rid k, pending s' !! rid = Some k →
     pending s !! rid = Some k ∨ covered_kont files (length (attempts s')) k) →
  covered files s'.
Proof.
  intros [Hh Hl Ht Hp] Hheap Hlen Hled (ex & Htr & Hex) Hpend.
  split.
  - by rewrite Hheap.
  - done.
  - rewrite Htr. by apply Forall_app.
  - intros rid k Hk. destruct (Hpend _ _ Hk) as [Hk'|Hk']; [|done].
    eapply covered_kont_mono; [exact Hlen|]. eauto.
Qed.

Lemma ledger_covered files att a s :
  covered files s → attempts s !! att = Some a → ledger att s = files.
Proof.
  intros C Ha. unfold ledger. rewrite Ha. simpl.
  pose proof (cov_ledger _ _ C) as Hl. rewrite Forall_lookup in Hl.
  by rewrite (Hl _ _ Ha), (cov_heap _ _ C).
Qed.

Lemma covered_take files rid s :
  covered files s → covered files (take_pending rid s).
Proof.
  intros C. apply (covered_ext files s); try done; try apply C.
  - exists []. by rewrite app_nil_r.
  - intros rid' k Hk. simpl in Hk.
    apply lookup_delete_Some in Hk as [_ Hk]. by left.
Qed.

Lemma covered_walk files (P : kont → Prop) s s' :
  covered files s → walk P (λ a, ¬ transfer a) s s' →
  (∀ k, P k → covered_kont files (length (attempts s)) k) →
  covered files s'.
Proof.
  intros C [A R H Pp F Nn K T _] HP.
  apply (covered_ext files s); rewrite ?A; try done; try apply C.
  intros rid k Hk. destruct (K _ _ Hk); [by left|right; auto].
Qed.

Lemma covered_resolve files att s :
  covered files s → covered files (resolve att s).
Proof.
  intros C. unfold resolve.
  destruct (attempts s !! att) as [a|]; [|done].
  destruct (a_status a); try done.
  destruct (quiet att s); [|done].
  apply (covered_ext files s); simpl; try done.
  - by rewrite length_alter.
  - apply Forall_alter; [apply C|]. by intros a' _ Ha'.
  - eexists. split; [reflexivity|]. repeat constructor. simpl. tauto.
  - intros rid k Hk. by left.
Qed.

Lemma covered_reject files att e s :
  covered files s → covered files (reject att e s).
Proof.
  intros C. unfold reject, retryCatch.
  destruct (attempts s !! att) as [a|] eqn:Ha; [|done].
  destruct (a_status a); try done.
  assert (Hl : a_ledger a = 0).
  { pose proof (cov_ledger _ _ C) as Hl. rewrite Forall_lookup in Hl. eauto. }
  destruct (test_throws e); cbn [conclude].
  { apply (covered_ext files s); simpl; try done.
    - by rewrite length_alter.
    - apply Forall_alter; [apply C|]. by intros a' _ Ha'.
    - eexists. split; [reflexivity|]. repeat constructor. simpl. tauto.
    - intros rid k Hk. by left. }
  destruct (rate_limited e) as [h|]; cbn [conclude].
  - apply (covered_ext files s); simpl; try done.
    + by rewrite length_alter.
    + apply Forall_alter; [apply C|]. by intros a' _ Ha'.
    + eexists. split; [by rewrite <- !app_assoc|].
      repeat constructor; simpl; tauto.
    + intros rid k Hk.
      apply lookup_insert_Some in Hk as [[_ <-]|[_ Hk]]; [by right|by left].
  - apply (covered_ext files s); simpl; try done.
    + by rewrite length_alter.
    + apply Forall_alter; [apply C|]. by intros a' _ Ha'.
    + eexists. split; [reflexivity|]. repeat constructor. simpl. tauto.
    + intros rid k Hk. by left.
Qed.

Lemma covered_retryDownload files run root path s :
  covered files s → covered files (retryDownload run root path 0 s).
Proof.
  intros C. apply (covered_ext files s); simpl; try done; try apply C.
  - rewrite length_app. lia.
  - apply Forall_app. split; [apply C|]. by repeat constructor.
  - eexists. split; [reflexivity|]. repeat constructor. simpl. tauto.
  - intros rid k Hk.
    apply lookup_insert_Some in Hk as [[_ <-]|[_ Hk]]; [right|by left].
    simpl. rewrite length_app. simpl. split; [lia|].
    intros item Hin. inversion Hin.
Qed.

Lemma listed_in_app files l1 l2 :
  listed_in files l1 → listed_in files l2 → listed_in files (l1 ++ l2).
Proof.
  intros H1 H2 item Hin. apply elem_of_app in Hin as [?|?]; auto.
Qed.

Lemma covered_step N dest files s ev :
  lists_within files ev → covered files s →
  covered files (step N dest s ev).
Proof.
  intros Hev C. unfold step.
  destruct ev as [rid r|rid r|rid|k].
  - destruct (pending s !! rid) as [k|] eqn:Hk; [|done].
    pose proof (cov_pending _ _ C _ _ Hk) as Hc.
    destruct k as [|att folderId path offset allItems| |]; try done.
    destruct Hc as [Hlt Hlist].
    pose proof (covered_take files rid s C) as C1.
    destruct r as [e|info]; [by apply covered_reject|].
    simpl in Hev.
    pose proof (listed_in_app _ _ _ Hlist Hev) as Hall.
    destruct (next_batch offset (entries info)).
    + apply (covered_walk files (λ k, k = KPage att folderId path n
                                        (allItems ++ entries info))
               (take_pending rid s)); [done| |].
      * apply walk_request; simpl; [done|tauto].
      * intros k ->. simpl. done.
    + apply covered_resolve.
      destruct (lookup_lt_is_Some_2 _ _ Hlt) as [a Ha].
      assert (Hnew : new_files att (allItems ++ entries info)
                       (take_pending rid s) = []).
      { apply listed_no_new_files.
        by rewrite (ledger_covered files att a _ C1 Ha). }
      apply (covered_walk files (λ k, ∃ f p, k = KPage att f p 0 [])
               (take_pending rid s)); [done| |].
      * apply walk_processFolder; simpl; try tauto; try eauto;
          rewrite Hnew; intros; exfalso; eapply not_elem_of_nil; eauto.
      * intros k (f & p & ->). simpl. split; [done|].
        intros item Hin. inversion Hin.
  - destruct (pending s !! rid) as [k|] eqn:Hk; [|done].
    pose proof (cov_pending _ _ C _ _ Hk) as Hc.
    destruct k; done.
  - destruct (pending s !! rid) as [k|] eqn:Hk; [|done].
    pose proof (cov_pending _ _ C _ _ Hk) as Hc.
    destruct k as [| | |run root path l]; try done.
    simpl in Hc. subst l.
    by apply covered_retryDownload, covered_take.
  - case_bool_decide; [|done].
    apply (covered_ext files s); try done; try apply C.
    + exists []. by rewrite app_nil_r.
    + intros rid k' Hk. by left.
Qed.

Lemma covered_run N dest files evs : ∀ s,
  Forall (lists_within files) evs → covered files s →
  covered files (run_events N dest s evs).
Proof.
  induction evs as [|ev evs IH]; intros s Hevs C; simpl; [done|].
  inversion Hevs; subst. apply IH; [done|]. by apply covered_step.
Qed.

Lemma covered_sync_from dirs0 root path files :
  covered files (sync_from dirs0 root path files).
Proof.
  split; simpl.
  - done.
  - by repeat constructor.
  - repeat constructor. simpl. tauto.
  - intros rid k Hk. apply lookup_insert_Some in Hk as [[_ <-]|[_ Hk]].
    + simpl. split; [lia|]. intros item Hin. inversion Hin.
    + by rewrite lookup_empty in Hk.
Qed.

End CoveredFacts.

(** ** Numbers *)

Section NumberFacts.




End NumberFacts.

(** ** Errors with their response *)

Section SoundFacts.
Import Sync SyncProps.

Lemma mild_refl s : mild s s.
Proof. by split. Qed.

Lemma mild_trans s1 s2 s3 : mild s1 s2 → mild s2 s3 → mild s1 s3.
Proof. intros [A1 B1] [A2 B2]. split; eauto. Qed.

Lemma mild_same s s' ex :
  runs s' = runs s → trace s' = trace s ++ ex → Forall plain ex →
  mild s s'.
Proof.
  intros Hr Ht Hex. split; [by rewrite Hr|].
  intros root e Hin. rewrite Ht in Hin. by eapply plain_outer.
Qed.

Lemma mild_quiet s s' : runs s' = runs s → trace s' = trace s → mild s s'.
Proof.
  intros Hr Ht. apply (mild_same s s' []); [done| |constructor].
  by rewrite app_nil_r.
Qed.

Lemma mild_walk P s s' : walk P plain s s' → mild s s'.
Proof.
  intros W. destruct (walk_trace _ _ _ _ W) as (ex & Ht & Hex).
  eapply mild_same; [apply (walk_runs _ _ _ _ W)|exact Ht|exact Hex].
Qed.

Lemma mild_chain run c s :
  (∀ e, c ≠ WrapperRejected e) → mild s (set_chain run c s).
Proof.
  intros Hc. split; [|done]. intros r e Hr. simpl in Hr.
  apply list_lookup_insert_Some in Hr as [(_ & Heq & _)|[_ Hr]]; [|done].
  by destruct (Hc e).
Qed.

Lemma mild_resolve att s : mild s (resolve att s).
Proof.
  unfold resolve. destruct (attempts s !! att) as [a|]; [|apply mild_refl].
  destruct (a_status a); try apply mild_refl.
  destruct (quiet att s); [|apply mild_refl].
  eapply mild_trans; [|by apply mild_chain].
  apply (mild_same _ _ [ALog (LogCompleted (a_root a))]); [done..|].
  by repeat constructor.
Qed.

Lemma mild_reject att e s : test_throws e = false → mild s (reject att e s).
Proof.
  intros He. unfold reject, retryCatch.
  destruct (attempts s !! att) as [a|]; [|apply mild_refl].
  destruct (a_status a); try apply mild_refl.
  rewrite He. destruct (rate_limited e) as [h|]; cbn [conclude].
  - eapply mild_trans; [|by apply mild_chain].
    apply (mild_same _ _
             [ALogError (ErrRateLimit e);
              ALog (LogRateLimited (a_root a) (parseInt h));
              ASetTimeout (next_rid s) (jsmul (parseInt h) 1000)]);
      [done| |by repeat constructor].
    simpl. by rewrite <- !app_assoc.
  - eapply mild_trans; [|by apply mild_chain].
    apply (mild_same _ _ [ALogError (ErrDownload (a_root a) e)]); [done..|].
    by repeat constructor.
Qed.

Lemma mild_retryDownload run root path l s :
  mild s (retryDownload run root path l s).
Proof.
  eapply mild_trans; [apply (mild_chain run (Attempting (length (attempts s))));
                      done|].
  apply (mild_same _ _ [AFoldersGet (next_rid s) root 1000 0]); [done..|].
  by repeat constructor.
Qed.

Lemma mild_streamOpened N att file path s :
  mild s (streamOpened att file path N s).
Proof.
  split.
  - unfold streamOpened. simpl. by destruct (attempts s !! att).
  - intros root e Hin.
    assert (T : trace (streamOpened att file path N s)
                = trace s
                  ++ [ACreateWriteStream (path_join N path (item_name file));
                      APipe (item_id file)
                        (path_join N path (item_name file))]).
    { unfold streamOpened. simpl.
      destruct (attempts s !! att); simpl; by rewrite <- app_assoc. }
    rewrite T in Hin. apply elem_of_app in Hin as [Hin|Hin]; [done|].
    repeat (apply elem_of_cons in Hin as [Hin|Hin]; [done|]).
    inversion Hin.
Qed.

Lemma sound_mild s s' : sound s → stable s s' → mild s s' → sound s'.
Proof.
  intros [Hw Ho] S [M1 M2]. split.
  - intros run e Hr. by apply (Hw run e), M1.
  - intros root e Hin. destruct (Ho _ _ (M2 _ _ Hin)) as [run Hr].
    exists run. by apply (S run (InfoFailed e)).
Qed.

(** The transitions that settle anything but a root's own folder
    request with an error. *)
Lemma mild_step N dest s ev :
  answered ev →
  (∀ rid e run root, ev = FolderSettled rid (inl e) →
     pending s !! rid ≠ Some (KRootInfo run root)) →
  mild s (step N dest s ev).
Proof.
  intros Hev Hroot. unfold step.
  destruct ev as [rid r|rid r|rid|k].
  - destruct (pending s !! rid) as [k|] eqn:Hk; [|apply mild_refl].
    destruct k as [run root|att folderId path offset allItems| |];
      try apply mild_refl.
    + destruct r as [e|info]; [by destruct (Hroot rid e run root)|].
      unfold rootInfo. eapply mild_trans; [|apply mild_retryDownload].
      apply (mild_same _ _
               [AMkdir (path_join N dest (folder_name info)) true]);
        [done..|by repeat constructor].
    + eapply mild_trans; [apply (mild_quiet s (take_pending rid s)); done|].
      destruct r as [e|info].
      * apply mild_reject. by apply with_response_spec.
      * destruct (next_batch offset (entries info)).
        -- eapply (mild_walk (busy att)). apply walk_request; simpl; auto.
        -- eapply mild_trans; [|apply mild_resolve].
           eapply mild_walk, plain_walk.
  - destruct (pending s !! rid) as [k|] eqn:Hk; [|apply mild_refl].
    destruct k as [| |att file path|]; try apply mild_refl.
    eapply mild_trans; [apply (mild_quiet s (take_pending rid s)); done|].
    destruct r as [e|].
    + apply mild_reject. by apply with_response_spec.
    + eapply mild_trans; [apply mild_streamOpened|apply mild_resolve].
  - destruct (pending s !! rid) as [k|] eqn:Hk; [|apply mild_refl].
    destruct k as [| | |run root path l]; try apply mild_refl.
    eapply mild_trans; [apply (mild_quiet s (take_pending rid s)); done|].
    apply mild_retryDownload.
  - case_bool_decide; [|apply mild_refl]. by apply mild_quiet.
Qed.

Lemma sound_step N dest s ev :
  answered ev → inv s → sound s → sound (step N dest s ev).
Proof.
  intros Hev I Hs.
  destruct (step_ok N dest s ev I) as [_ S].
  assert (D : (∃ rid e run root, ev = FolderSettled rid (inl e)
                 ∧ pending s !! rid = Some (KRootInfo run root))
              ∨ ¬ (∃ rid e run root, ev = FolderSettled rid (inl e)
                     ∧ pending s !! rid = Some (KRootInfo run root))).
  { destruct ev as [rid [e|info]|rid r|rid|k];
      try (right; by intros (? & ? & ? & ? & [=] & _)).
    destruct (pending s !! rid) as [[run root| | |]|] eqn:Hk;
      try (right; intros (? & ? & ? & ? & [= <- <-] & Hk'); congruence).
    left. by exists rid, e, run, root. }
  destruct D as [(rid & e & run & root & -> & Hk)|Hno].
  - pose proof (inv_info _ I _ _ _ Hk) as H0.
    unfold step. rewrite Hk. destruct Hs as [Hw Ho]. split.
    + intros r e' Hr. simpl in Hr.
      apply list_lookup_insert_Some in Hr as [(_ & [=] & _)|[_ Hr]].
      by apply (Hw r e').
    + intros root' e' Hin. simpl in Hin.
      apply elem_of_app in Hin as [Hin|Hin].
      * destruct (Ho _ _ Hin) as [r Hr]. exists r. simpl.
        rewrite list_lookup_insert_ne; [done|]. intros ->. congruence.
      * apply list_elem_of_singleton in Hin. injection Hin as -> ->.
        exists run. simpl. apply list_lookup_insert_eq.
        eapply lookup_lt_Some; eauto.
  - eapply sound_mild; [exact Hs|exact S|].
    apply mild_step; [exact Hev|].
    intros rid e run root -> Hk. apply Hno. by exists rid, e, run, root.
Qed.

Lemma sound_run N dest evs : ∀ s,
  Forall answered evs → inv s → sound s →
  sound (run_events N dest s evs).
Proof.
  induction evs as [|ev evs IH]; intros s Hevs I Hs; simpl; [done|].
  inversion Hevs; subst. apply IH; [done| |by apply sound_step].
  by apply step_ok.
Qed.

Lemma sound_boot dirs0 roots : sound (boot dirs0 roots).
Proof.
  unfold boot.
  assert (H : ∀ s, sound s → sound (foldl launch s roots)).
  { induction roots as [|root roots IH]; intros s Hs; simpl; [done|].
    apply IH. destruct Hs as [Hw Ho]. split.
    - intros run e Hr. simpl in Hr.
      apply lookup_app_Some in Hr as [Hr|[_ Hr]]; [by apply (Hw run e)|].
      destruct (run - length (runs s)) as [|[|?]]; simpl in Hr; done.
    - intros root' e Hin.
      apply plain_outer in Hin; [|by repeat constructor].
      destruct (Ho _ _ Hin) as [r Hr]. exists r. simpl.
      by apply lookup_app_l_Some. }
  apply H. split; [by intros [|?] ?|]. intros root e Hin. inversion Hin.
Qed.

End SoundFacts.

(** ** What a root waits on is outstanding *)

Section LiveFacts.
Import Sync SyncProps.

Lemma waits_grow s s' run c more :
  attempts s' = attempts s ++ more → pending s ⊆ pending s' →
  waits s run c → waits s' run c.
Proof.
  intros Ha Hp. destruct c; simpl; try done.
  - intros [root Hk]. exists root. by eapply lookup_weaken.
  - intros ((a & Hatt & Hrun & Hst) & rid & k & Hk & Hb). split.
    + exists a. rewrite Ha. split; [by apply lookup_app_l_Some|done].
    + exists rid, k. split; [by eapply lookup_weaken|done].
  - intros (root & path & l & Hk). exists root, path, l.
    by eapply lookup_weaken.
Qed.

Lemma live_but_walk P Q run s s' :
  walk P Q s s' → live_but run s → live_but run s'.
Proof.
  intros W [Hf Hw]. destruct (walk_keeps _ _ _ _ W Hf) as [Hf' Hsub].
  split; [exact Hf'|]. intros r c Hne Hr.
  rewrite (walk_runs _ _ _ _ W) in Hr.
  apply (waits_grow s s' r c []); [|exact Hsub|by apply Hw].
  by rewrite app_nil_r, (walk_attempts _ _ _ _ W).
Qed.

Lemma live_walk P Q s s' : walk P Q s s' → live s → live s'.
Proof.
  intros W [Hf Hw]. destruct (walk_keeps _ _ _ _ W Hf) as [Hf' Hsub].
  split; [exact Hf'|]. intros r c Hr.
  rewrite (walk_runs _ _ _ _ W) in Hr.
  apply (waits_grow s s' r c []); [|exact Hsub|by apply Hw].
  by rewrite app_nil_r, (walk_attempts _ _ _ _ W).
Qed.

Lemma live_of_but run s :
  live_but run s → (∀ c, runs s !! run = Some c → waits s run c) → live s.
Proof.
  intros [Hf Hw] Hrun. split; [exact Hf|]. intros r c Hr.
  destruct (decide (r = run)) as [->|Hne]; [by apply Hrun|by apply Hw].
Qed.

(** Taking the folder request or the timer of a root leaves the other
    roots what they wait on. *)
Lemma live_but_take rid k run s :
  live s → pending s !! rid = Some k → token run k →
  live_but run (take_pending rid s).
Proof.
  intros [Hf Hw] Hk Htok. split.
  - intros rid' k' Hk'. simpl in Hk'.
    apply lookup_delete_Some in Hk' as [_ Hk']. by apply (Hf rid' k').
  - intros r c Hne Hr. pose proof (Hw r c Hr) as H.
    destruct c; simpl in *; try done.
    + destruct H as [root Hk']. exists root.
      rewrite lookup_delete_ne; [done|]. intros ->.
      rewrite Hk in Hk'. injection Hk' as ->. simpl in Htok. congruence.
    + destruct H as (Ha & rid' & k' & Hk' & Hb). split; [exact Ha|].
      exists rid', k'. split; [|done].
      rewrite lookup_delete_ne; [done|]. intros ->.
      rewrite Hk in Hk'. injection Hk' as ->. by destruct k'.
    + destruct H as (root & path & l & Hk'). exists root, path, l.
      rewrite lookup_delete_ne; [done|]. intros ->.
      rewrite Hk in Hk'. injection Hk' as ->. simpl in Htok. congruence.
Qed.

(** Taking a request of a call leaves every root what it waits on,
    but for a root that waits on this call. *)
Lemma waits_take_busy rid k att s r c :
  pending s !! rid = Some k → busy att k → c ≠ Attempting att →
  waits s r c → waits (take_pending rid s) r c.
Proof.
  intros Hk Hb Hc H. destruct c; simpl in *; try done.
  - destruct H as [root Hk']. exists root.
    rewrite lookup_delete_ne; [done|]. intros ->.
    rewrite Hk in Hk'. injection Hk' as ->. done.
  - destruct H as (Ha & rid' & k' & Hk' & Hb'). split; [exact Ha|].
    exists rid', k'. split; [|done].
    rewrite lookup_delete_ne; [done|]. intros ->.
    rewrite Hk in Hk'. injection Hk' as ->.
    apply Hc. f_equal. by eapply busy_same.
  - destruct H as (root & path & l & Hk'). exists root, path, l.
    rewrite lookup_delete_ne; [done|]. intros ->.
    rewrite Hk in Hk'. injection Hk' as ->. done.
Qed.

Lemma fresh_take rid s : fresh s → fresh (take_pending rid s).
Proof.
  intros Hf rid' k' Hk'. simpl in Hk'.
  apply lookup_delete_Some in Hk' as [_ Hk']. by apply (Hf rid' k').
Qed.

Lemma live_but_take_busy rid k att a s :
  live s → pending s !! rid = Some k → busy att k →
  attempts s !! att = Some a →
  live_but (a_run a) (take_pending rid s).
Proof.
  intros [Hf Hw] Hk Hb Ha. split; [by apply fresh_take|].
  intros r c Hne Hr. pose proof (Hw r c Hr) as H.
  apply (waits_take_busy rid k att); [done..| |done].
  intros ->. destruct H as ((a' & Ha' & Hrun & _) & _). congruence.
Qed.

(** Taking a request of a call that has ended leaves every root what it
    waits on. *)
Lemma live_take_ended rid k att a s :
  live s → pending s !! rid = Some k → busy att k →
  attempts s !! att = Some a → a_status a ≠ Running →
  live (take_pending rid s).
Proof.
  intros [Hf Hw] Hk Hb Ha Hst. split; [by apply fresh_take|].
  intros r c Hr. pose proof (Hw r c Hr) as H.
  apply (waits_take_busy rid k att); [done..| |done].
  intros ->. destruct H as ((a' & Ha' & _ & Hrun) & _). congruence.
Qed.

Lemma live_but_status run att a st s :
  attempts s !! att = Some a → a_run a = run →
  live_but run s → live_but run (set_status att st s).
Proof.
  intros Ha Hrun [Hf Hw]. split; [exact Hf|].
  intros r c Hne Hr. pose proof (Hw r c Hne Hr) as H.
  destruct c; simpl in *; try done.
  destruct H as ((a' & Ha' & Hrun' & Hst) & Hp). split; [|exact Hp].
  exists a'. rewrite list_lookup_alter_ne; [done|]. intros ->. congruence.
Qed.

(** A root whose chain ends waits on nothing. *)
Lemma live_close run c s :
  live_but run s → terminal c → live (set_chain run c s).
Proof.
  intros [Hf Hw] Ht. split; [exact Hf|]. intros r c' Hr. simpl in Hr.
  apply list_lookup_insert_Some in Hr as [(-> & <- & _)|[Hne Hr]].
  - by destruct c.
  - by apply (Hw r c').
Qed.

Lemma fresh_none s : fresh s → pending s !! next_rid s = None.
Proof.
  intros Hf. destruct (pending s !! next_rid s) as [k|] eqn:Hk; [|done].
  apply Hf in Hk. lia.
Qed.

Lemma fresh_request k f s : fresh s → fresh (request k f s).
Proof.
  intros Hf rid k' Hk'. simpl in *.
  apply lookup_insert_Some in Hk' as [[<- _]|[_ Hk']]; [lia|].
  apply Hf in Hk'. lia.
Qed.

(** [retryDownload] gives the root a call with its first request. *)
Lemma live_retryDownload run root path l s :
  live_but run s → live (retryDownload run root path l s).
Proof.
  intros [Hf Hw].
  destruct (retryDownload_fields run root path l s)
    as (Ep & En & Ea & _ & Er & _). cbn zeta in *.
  split.
  - intros rid k Hk. rewrite Ep in Hk. rewrite En.
    apply lookup_insert_Some in Hk as [[<- _]|[_ Hk]]; [lia|].
    apply Hf in Hk. lia.
  - intros r c Hr. rewrite Er in Hr.
    apply list_lookup_insert_Some in Hr as [(-> & <- & _)|[Hne Hr]].
    + split.
      * exists {| a_run := r; a_root := root; a_path := path;
                  a_ledger := l; a_status := Running |}.
        rewrite Ea. split; [|done].
        by rewrite lookup_app_r, Nat.sub_diag.
      * exists (next_rid s), (KPage (length (attempts s)) root path 0 []).
        rewrite Ep. split; [apply lookup_insert_eq|done].
    + eapply (waits_grow s); [exact Ea| |by apply Hw].
      rewrite Ep. apply insert_subseteq, fresh_none, Hf.
Qed.

(** Arming the retry timer gives the root its timer to wait on. *)
Lemma live_wait run root path l f s :
  live_but run s →
  live (set_chain run (Waiting (next_rid s))
          (request (KTimer run root path l) f s)).
Proof.
  intros [Hf Hw]. split; [by apply fresh_request|].
  intros r c Hr. simpl in Hr.
  apply list_lookup_insert_Some in Hr as [(-> & <- & _)|[Hne Hr]].
  - exists root, path, l. simpl. apply lookup_insert_eq.
  - apply (waits_grow s _ r c []); [by rewrite app_nil_r| |by apply Hw].
    simpl. apply insert_subseteq, fresh_none, Hf.
Qed.

(** A callback that takes its request and issues another for the same
    call. *)
Lemma live_next_request rid k att k' f s :
  live s → pending s !! rid = Some k → busy att k → busy att k' →
  live (request k' f (take_pending rid s)).
Proof.
  intros [Hf Hw] Hk Hb Hb'.
  pose proof (fresh_take rid s Hf) as Hf1.
  split; [by apply fresh_request|].
  intros r c Hr. change (runs s !! r = Some c) in Hr.
  pose proof (Hw r c Hr) as H.
  assert (D : c = Attempting att ∨ c ≠ Attempting att).
  { destruct c as [|att'| | | | |]; try (by right).
    destruct (decide (att' = att)) as [->|?]; [by left|right; congruence]. }
  destruct D as [->|Hne].
  - destruct H as (Ha & _). split; [exact Ha|].
    exists (next_rid s), k'. simpl. split; [apply lookup_insert_eq|done].
  - apply (waits_grow (take_pending rid s) _ r c []);
      [by rewrite app_nil_r| |by apply (waits_take_busy rid k att)].
    simpl. apply insert_subseteq. apply (fresh_none _ Hf1).
Qed.

Lemma quiet_false att s :
  quiet att s = false → ∃ rid k, pending s !! rid = Some k ∧ busy att k.
Proof.
  intros H. unfold quiet in H. apply bool_decide_eq_false in H.
  apply map_not_Forall in H; [|apply _].
  destruct H as (rid & k & Hk & Hb). exists rid, k. split; [done|].
  by apply dec_stable.
Qed.

Lemma quiet_true att s rid k :
  quiet att s = true → pending s !! rid = Some k → ¬ busy att k.
Proof.
  intros H Hk. unfold quiet in H. apply bool_decide_eq_true in H.
  by apply (H rid k).
Qed.

(** The end of a callback of call [att], when the call's promise may
    fulfil. *)
Lemma live_resolve att a s :
  attempts s !! att = Some a →
  (a_status a = Running →
   runs s !! a_run a = Some (Attempting att) ∧ live_but (a_run a) s) →
  (a_status a ≠ Running → live s) →
  live (resolve att s).
Proof.
  intros Ha Hrun Hend. unfold resolve. rewrite Ha.
  destruct (a_status a) eqn:Hst; try (apply Hend; congruence).
  destruct (Hrun eq_refl) as [Hc Hl].
  destruct (quiet att s) eqn:Hq.
  - apply live_close; [|done].
    eapply live_but_walk; [by apply (walk_emit (λ _, True) (λ _, True))|].
    by apply (live_but_status _ _ a).
  - apply (live_of_but (a_run a)); [exact Hl|].
    intros c Hc'. rewrite Hc in Hc'. injection Hc' as <-. split.
    + by exists a.
    + by apply quiet_false.
Qed.

(** The end of a callback of call [att], when the call's promise is
    rejected. *)
Lemma live_reject att a e s :
  attempts s !! att = Some a →
  (a_status a = Running → live_but (a_run a) s) →
  (a_status a ≠ Running → live s) →
  live (reject att e s).
Proof.
  intros Ha Hrun Hend. unfold reject. rewrite Ha.
  destruct (a_status a) eqn:Hst; try (apply Hend; congruence).
  pose proof (Hrun eq_refl) as Hl.
  assert (Hl0 : live_but (a_run a) (set_status att (RejectedWith e) s))
    by (by apply (live_but_status _ _ a)).
  unfold retryCatch. destruct (test_throws e); cbn [conclude].
  { eapply live_walk; [by apply (walk_emit (λ _, True) (λ _, True))|].
    by apply live_close. }
  destruct (rate_limited e) as [h|]; cbn [conclude].
  - apply (live_wait (a_run a) (a_root a) (a_path a) (a_ledger a)
             (λ rid, ASetTimeout rid (jsmul (parseInt h) 1000))
             (emit (ALog (LogRateLimited (a_root a) (parseInt h)))
                (emit (ALogError (ErrRateLimit e))
                   (set_status att (RejectedWith e) s)))).
    do 2 (eapply live_but_walk;
          [by apply (walk_emit (λ _, True) (λ _, True))|]).
    exact Hl0.
  - apply live_close; [|done].
    eapply live_but_walk; [by apply (walk_emit (λ _, True) (λ _, True))|].
    exact Hl0.
Qed.

Lemma live_same s s' :
  pending s' = pending s → next_rid s' = next_rid s →
  attempts s' = attempts s → runs s' = runs s → live s → live s'.
Proof.
  intros Hp Hn Ha Hr [Hf Hw]. split.
  - unfold fresh. by rewrite Hp, Hn.
  - intros r c Hc. rewrite Hr in Hc.
    apply (waits_grow s s' r c []); [by rewrite app_nil_r, Ha|by rewrite Hp|].
    by apply Hw.
Qed.

Lemma live_but_same run s s' :
  pending s' = pending s → next_rid s' = next_rid s →
  attempts s' = attempts s → runs s' = runs s →
  live_but run s → live_but run s'.
Proof.
  intros Hp Hn Ha Hr [Hf Hw]. split.
  - unfold fresh. by rewrite Hp, Hn.
  - intros r c Hne Hc. rewrite Hr in Hc.
    apply (waits_grow s s' r c []); [by rewrite app_nil_r, Ha|by rewrite Hp|].
    by apply Hw.
Qed.

Lemma streamOpened_fields N att file path s :
  let s' := streamOpened att file path N s in
  pending s' = pending s ∧ next_rid s' = next_rid s
  ∧ attempts s' = attempts s ∧ runs s' = runs s.
Proof.
  unfold streamOpened. simpl. by destruct (attempts s !! att).
Qed.

(** A callback of call [att] that has taken its request and issued its
    own. *)
Lemma live_settled rid k att a s s2 :
  inv s → live s → pending s !! rid = Some k → busy att k →
  attempts s !! att = Some a →
  attempts s2 = attempts s → runs s2 = runs s →
  (∀ run, live_but run (take_pending rid s) → live_but run s2) →
  (live (take_pending rid s) → live s2) →
  (a_status a = Running →
   runs s2 !! a_run a = Some (Attempting att) ∧ live_but (a_run a) s2)
  ∧ (a_status a ≠ Running → live s2).
Proof.
  intros I L Hk Hb Ha Ea Er Hbut Hall. split.
  - intros Hrun. split.
    + rewrite Er. by apply (inv_running _ I).
    + apply Hbut. by apply (live_but_take_busy rid k att).
  - intros Hend. apply Hall. by apply (live_take_ended rid k att a).
Qed.

Lemma live_step N dest s ev : inv s → live s → live (step N dest s ev).
Proof.
  intros I L. unfold step.
  destruct ev as [rid r|rid r|rid|k].
  - destruct (pending s !! rid) as [k|] eqn:Hk; [|done].
    destruct k as [run root|att folderId path offset allItems| |];
      try done.
    + assert (Hl : live_but run (take_pending rid s))
        by (by apply (live_but_take rid (KRootInfo run root))).
      destruct r as [e|info].
      * eapply live_walk; [by apply (walk_emit (λ _, True) (λ _, True))|].
        by apply live_close.
      * unfold rootInfo. apply live_retryDownload.
        set (s1 := mkdirSync (path_join N dest (folder_name info)) true
                     (take_pending rid s)).
        assert (Hl1 : live_but run s1).
        { eapply live_but_walk; [|exact Hl].
          by apply (walk_mkdirSync (λ _, True) (λ _, True)). }
        by apply (live_but_same run s1).
    + assert (Hlt : att < length (attempts s))
        by (eapply inv_busy; [exact I|exact Hk|done]).
      destruct (lookup_lt_is_Some_2 _ _ Hlt) as [a Ha].
      destruct r as [e|info].
      * destruct (live_settled rid _ att a s (take_pending rid s)
                    I L Hk eq_refl Ha) as [H1 H2]; try done.
        apply (live_reject att a); [done| |done].
        intros Hrun. by apply H1.
      * destruct (next_batch offset (entries info)).
        -- by apply (live_next_request rid
                       (KPage att folderId path offset allItems) att).
        -- set (s2 := processFolder N att folderId path
                        (allItems ++ entries info) (take_pending rid s)).
           pose proof (plain_walk N att folderId path
                         (allItems ++ entries info) (take_pending rid s))
             as W.
           destruct (live_settled rid _ att a s s2 I L Hk eq_refl Ha)
             as [H1 H2].
           ++ apply (walk_attempts _ _ _ _ W).
           ++ apply (walk_runs _ _ _ _ W).
           ++ intros run. apply (live_but_walk _ _ _ _ _ W).
           ++ apply (live_walk _ _ _ _ W).
           ++ apply (live_resolve att a); [|done..].
              subst s2. by rewrite (walk_attempts _ _ _ _ W).
  - destruct (pending s !! rid) as [k|] eqn:Hk; [|done].
    destruct k as [| |att file path|]; try done.
    assert (Hlt : att < length (attempts s))
      by (eapply inv_busy; [exact I|exact Hk|done]).
    destruct (lookup_lt_is_Some_2 _ _ Hlt) as [a Ha].
    destruct r as [e|].
    + destruct (live_settled rid _ att a s (take_pending rid s)
                  I L Hk eq_refl Ha) as [H1 H2]; try done.
      apply (live_reject att a); [done| |done].
      intros Hrun. by apply H1.
    + set (s2 := streamOpened att file path N (take_pending rid s)).
      destruct (streamOpened_fields N att file path (take_pending rid s))
        as (Ep & En & Ea & Er). cbn zeta in *.
      destruct (live_settled rid _ att a s s2 I L Hk eq_refl Ha)
        as [H1 H2]; try done.
      * intros run. by apply live_but_same.
      * by apply live_same.
      * apply (live_resolve att a); [|done..]. subst s2. by rewrite Ea.
  - destruct (pending s !! rid) as [k|] eqn:Hk; [|done].
    destruct k as [| | |run root path l]; try done.
    apply live_retryDownload.
    by apply (live_but_take rid (KTimer run root path l)).
  - case_bool_decide; [|done]. by apply (live_same s).
Qed.

Lemma live_launch s root : live s → live (launch s root).
Proof.
  intros [Hf Hw]. split.
  - intros rid k Hk. simpl in *.
    apply lookup_insert_Some in Hk as [[<- _]|[_ Hk]]; [lia|].
    apply Hf in Hk. lia.
  - intros r c Hr. simpl in Hr.
    apply lookup_app_Some in Hr as [Hr|[Hge Hr]].
    + apply (waits_grow s _ r c []); [by rewrite app_nil_r| |by apply Hw].
      simpl. apply insert_subseteq, fresh_none, Hf.
    + destruct (r - length (runs s)) as [|n] eqn:E; simpl in Hr;
        [|by destruct n].
      injection Hr as <-. exists root. simpl.
      replace r with (length (runs s)) by lia. apply lookup_insert_eq.
Qed.

Lemma live_boot dirs0 roots : live (boot dirs0 roots).
Proof.
  unfold boot.
  assert (H : ∀ s, live s → live (foldl launch s roots)).
  { induction roots as [|root roots IH]; intros s L; simpl; [done|].
    by apply IH, live_launch. }
  apply H. split; [by intros rid k Hk|by intros [|r] c Hr].
Qed.

(** Every state the program reaches: a root that has not ended waits on
    something outstanding. *)
Lemma reach_live N dest dirs0 roots evs :
  live (run_events N dest (boot dirs0 roots) evs).
Proof.
  assert (H : ∀ s, inv s → live s → live (run_events N dest s evs)).
  { induction evs as [|ev evs IH]; intros s I L; simpl; [done|].
    apply IH; [by apply step_ok|by apply live_step]. }
  apply H; [apply boot_inv|apply live_boot].
Qed.

Lemma pending_resolve att s : pending (resolve att s) = pending s.
Proof.
  unfold resolve. destruct (attempts s !! att) as [a|]; [|done].
  destruct (a_status a); [|done..]. by destruct (quiet att s).
Qed.

Lemma quiet_resolve att s : quiet att (resolve att s) = quiet att s.
Proof. unfold quiet. by rewrite pending_resolve. Qed.

(** The [.then] of lines 149-151 runs when nothing of the call is
    outstanding, and only then. *)
Lemma resolve_fields att a s :
  attempts s !! att = Some a → a_status a = Running →
  (quiet att s = true →
   resolve att s
   = set_chain (a_run a) Completed
       (log (LogCompleted (a_root a)) (set_status att Resolved s)))
  ∧ (quiet att s = false → resolve att s = s).
Proof.
  intros Ha Hrun. unfold resolve. rewrite Ha, Hrun.
  split; intros ->; reflexivity.
Qed.

Lemma resolve_outcome att a s :
  attempts s !! att = Some a → a_status a = Running →
  runs s !! a_run a = Some (Attempting att) →
  (quiet att (resolve att s) = true →
   runs (resolve att s) !! a_run a = Some Completed
   ∧ last (trace (resolve att s)) = Some (ALog (LogCompleted (a_root a))))
  ∧ (quiet att (resolve att s) = false →
     runs (resolve att s) !! a_run a = Some (Attempting att)).
Proof.
  intros Ha Hrun Hc. rewrite quiet_resolve.
  destruct (resolve_fields att a s Ha Hrun) as [H1 H2].
  split; intros Hq.
  - rewrite (H1 Hq). split.
    + simpl. apply list_lookup_insert_eq. eapply lookup_lt_Some; eauto.
    + simpl. apply last_snoc.
  - by rewrite (H2 Hq).
Qed.

(** A request of a running call is answered. *)
Lemma step_succeeds N dest s att a rid k info :
  inv s → attempts s !! att = Some a → a_status a = Running →
  pending s !! rid = Some k → busy att k →
  (quiet att (step N dest s (succeeds rid k info)) = true →
   runs (step N dest s (succeeds rid k info)) !! a_run a = Some Completed
   ∧ last (trace (step N dest s (succeeds rid k info)))
     = Some (ALog (LogCompleted (a_root a))))
  ∧ (quiet att (step N dest s (succeeds rid k info)) = false →
     runs (step N dest s (succeeds rid k info)) !! a_run a
     = Some (Attempting att)).
Proof.
  intros I Ha Hrun Hk Hb.
  pose proof (inv_running _ I _ _ Ha Hrun) as Hc.
  destruct k as [|att' folderId path offset allItems|att' file path|];
    simpl in Hb; try done; subst att'; unfold succeeds, step; rewrite Hk.
  - destruct (next_batch offset (entries info)) as [offset'|].
    + split; [|done]. intros Hq. exfalso.
      apply (quiet_true _ _ (next_rid s)
               (KPage att folderId path offset' (allItems ++ entries info))
               Hq); [|done].
      simpl. apply lookup_insert_eq.
    + pose proof (plain_walk N att folderId path (allItems ++ entries info)
                    (take_pending rid s)) as W.
      apply resolve_outcome; [|done|].
      * by rewrite (walk_attempts _ _ _ _ W).
      * by rewrite (walk_runs _ _ _ _ W).
  - destruct (streamOpened_fields N att file path (take_pending rid s))
      as (_ & _ & Ea & Er). cbn zeta in *.
    apply resolve_outcome; [by rewrite Ea|done|by rewrite Er].
Qed.

End LiveFacts.

(** * The properties of the specification *)

Section SpecProperties.
Import Sync SyncProps CliProps Samples.

Lemma launched_none run s :
  Forall (λ a, a_run a ≠ run) (attempts s) → launched run s = 0.
Proof.
  intros H. unfold launched.
  induction (attempts s) as [|a l IH]; [done|].
  inversion H; subst. rewrite fmap_cons, filter_cons_False by done. auto.
Qed.

Lemma scan_within l : ∀ c t,
  t ∈ Cli.rootFolderIds (Cli.scan l c) → t ∈ Cli.rootFolderIds c ∨ t ∈ l.
Proof.
  induction l as [l IH] using (induction_ltof1 _ (@length string)).
  unfold ltof in IH. intros c t Ht.
  destruct l as [|a l']; [by left|]. rewrite scan_cons in Ht.
  destruct (bool_decide (a = "--destination")).
  - destruct l' as [|p l'']; [by left|].
    destruct (Cli.usable_path (Some p)).
    + destruct (IH l'' ltac:(simpl; lia) _ _ Ht) as [?|?]; [by left|].
      right. by do 2 right.
    + destruct (IH (p :: l'') ltac:(simpl; lia) _ _ Ht) as [?|?]; [by left|].
      right. by right.
  - destruct (IH l' ltac:(simpl; lia) _ _ Ht) as [Hin|?].
    + simpl in Hin. apply elem_of_app in Hin as [?|Hin]; [by left|].
      apply list_elem_of_singleton in Hin. subst. right. by left.
    + right. by right.
Qed.

(** C1, evaluated where it fails.  The listing of a subfolder is rate
    limited while the read stream of [report] is still being opened, and
    the retry timer fires before that stream arrives.  The retry is
    launched with the same array ([a_ledger] is 0 for both calls), but
    the array does not hold the file yet: the file is asked for twice
    and piped twice to the same local path. *)
Theorem overlapping_retry_transfers_twice :
  let s := run_events box "/data" (boot ∅ ["0"]) overlap in
  trace s
  = [ AFoldersGet 0 "0" 1000 0; AMkdir "/data/Shared" true;
      AFoldersGet 1 "0" 1000 0; ALog (LogDownloading "0");
      AGetReadStream 2 "f1"; AMkdir "/data/Shared/photos" false;
      AFoldersGet 3 "d1" 1000 0;
      ALogError (ErrRateLimit (limited "1"));
      ALog (LogRateLimited "0" (JNum 1)); ASetTimeout 4 (JNum 1000);
      AFoldersGet 5 "0" 1000 0; ALog (LogDownloading "0");
      AGetReadStream 6 "f1"; AFoldersGet 7 "d1" 1000 0;
      ACreateWriteStream "/data/Shared/report.txt";
      APipe "f1" "/data/Shared/report.txt";
      ACreateWriteStream "/data/Shared/report.txt";
      APipe "f1" "/data/Shared/report.txt" ]
  ∧ heap s = [["f1"; "f1"]]
  ∧ a_ledger <$> attempts s = [0; 0].
Proof. vm_compute. done. Qed.

Lemma opened_state :
  heap (run_events box "/data" (boot ∅ ["0"]) opened) = [["f1"]]
  ∧ finished (run_events box "/data" (boot ∅ ["0"]) opened) = ∅.
Proof. vm_compute. split; reflexivity. Qed.

(** C2 as stated fails: after the read stream of [report] has been
    opened the file is in the list of downloaded files, while no pipe
    has run to its end. *)
Lemma marked_before_written :
  marked "f1" (run_events box "/data" (boot ∅ ["0"]) opened)
  ∧ ¬ written "f1" (run_events box "/data" (boot ∅ ["0"]) opened).
Proof.
  destruct opened_state as [Hh Hf]. split.
  - exists ["f1"]. rewrite Hh. split; by left.
  - intros (k & path & _ & Hk). rewrite Hf in Hk.
    by apply not_elem_of_empty in Hk.
Qed.

(** C2, amended: in every state the program reaches, a file identifier
    is in a list of downloaded files if and only if a pipe of its read
    stream to a write stream has been started.  The mark is made in the
    callback that receives the opened stream, right after the call of
    [pipe]; a read stream that fails to open marks nothing.  The end of
    the pipe is not waited for. *)
Theorem mark_follows_pipe N dest dirs0 roots evs :
  let s := run_events N dest (boot dirs0 roots) evs in
  (∀ id, marked id s ↔ piped id s)
  ∧ ∀ rid att file path,
      pending s !! rid = Some (KStream att file path) →
      (∀ e, heap (step N dest s (StreamSettled rid (Some e))) = heap s)
      ∧ ∃ a ex,
          let output := path_join N path (item_name file) in
          let s1 := step N dest s (StreamSettled rid None) in
          attempts s !! att = Some a
          ∧ heap s1
            = alter (λ l, l ++ [item_id file]) (a_ledger a) (heap s)
          ∧ trace s1
            = trace s
              ++ [ACreateWriteStream output; APipe (item_id file) output]
              ++ ex.
Proof.
  cbn zeta. pose proof (reach_inv N dest dirs0 roots evs) as I.
  set (s := run_events N dest (boot dirs0 roots) evs) in *.
  split; [apply (inv_marked _ I)|].
  intros rid att file path Hk. split.
  - intros e. unfold step. rewrite Hk. by rewrite heap_reject.
  - assert (Hlt : att < length (attempts s))
      by (eapply inv_busy; [exact I|exact Hk|done]).
    destruct (lookup_lt_is_Some_2 _ _ Hlt) as [a Ha].
    destruct (trace_resolve att (streamOpened att file path N (take_pending rid s)))
      as [ex Hex].
    exists a, ex. split; [done|].
    unfold step. rewrite Hk, heap_resolve, Hex.
    unfold streamOpened. simpl. rewrite Ha. simpl.
    split; [done|]. by rewrite <- !app_assoc.
Qed.

Lemma mark_follows_pipe_witness :
  let s := run_events box "/data" (boot ∅ ["0"])
             [FolderSettled 0 (inr (root_info []));
              FolderSettled 1 (inr (root_info [report]))] in
  pending s !! 2 = Some (KStream 0 report "/data/Shared")
  ∧ (marked "f1" s ↔ piped "f1" s)
  ∧ heap (step box "/data" s (StreamSettled 2 (Some (OtherError "reset"))))
    = heap s.
Proof.
  cbn zeta.
  assert (Hk : pending (run_events box "/data" (boot ∅ ["0"])
                 [FolderSettled 0 (inr (root_info []));
                  FolderSettled 1 (inr (root_info [report]))]) !! 2
               = Some (KStream 0 report "/data/Shared"))
    by (vm_compute; reflexivity).
  destruct (mark_follows_pipe box "/data" ∅ ["0"]
              [FolderSettled 0 (inr (root_info []));
               FolderSettled 1 (inr (root_info [report]))]) as [Hm Hs].
  split; [exact Hk|]. split; [apply Hm|].
  apply (proj1 (Hs 2 0 report "/data/Shared" Hk)).
Defined.




(** C4 as stated fails: a 429 whose retry-after header is present but
    holds no number (here an HTTP date) is retried all the same, with a
    timer of NaN milliseconds; the root does not end as failed. *)
Lemma unreadable_header_still_retries :
  let s := run_events box "/data" (boot ∅ ["0"])
             [FolderSettled 0 (inr (root_info []))] in
  let s1 := step box "/data" s (FolderSettled 1 (inl (limited http_date))) in
  no_parseable_header (limited http_date)
  ∧ pending s !! 1 = Some (KPage 0 "0" "/data/Shared" 0 [])
  ∧ runs s1 = [Waiting 2]
  ∧ pending s1 !! 2 = Some (KTimer 0 "0" "/data/Shared" 0)
  ∧ last (trace s1) = Some (ASetTimeout 2 JNaN).
Proof.
  cbn zeta. split; [|vm_compute; done].
  intros n (headers & h & Heq & Hh & Hn).
  injection Heq as <-.
  rewrite lookup_singleton_eq in Hh. injection Hh as <-.
  discriminate Hn.
Qed.

(** C4, amended: when a running call of the synchronizer fails with an
    error that is no 429, or with a 429 whose retry-after header is
    missing or empty, the error is logged, the root ends as failed, and
    whatever is delivered afterwards the root stays failed, no further
    call of [retryDownload] is made for it, and no timer or folder
    request of its chain is left. *)
Theorem failure_without_header_is_final
    N dest dirs0 roots evs att a rid k e evs' :
  let s := run_events N dest (boot dirs0 roots) evs in
  attempts s !! att = Some a → a_status a = Running →
  pending s !! rid = Some k → busy att k → no_retry_header e →
  let s1 := step N dest s (fails rid k e) in
  let s2 := run_events N dest s1 evs' in
  trace s1 = trace s ++ [ALogError (ErrDownload (a_root a) e)]
  ∧ runs s2 !! a_run a = Some (Failed e)
  ∧ launched (a_run a) s2 = launched (a_run a) s
  ∧ idle (a_run a) s2.
Proof.
  cbn zeta. pose proof (reach_inv N dest dirs0 roots evs) as I.
  set (s := run_events N dest (boot dirs0 roots) evs) in *.
  intros Ha Hrun Hk Hb He. apply no_retry_header_spec in He.
  pose proof (step_ok N dest s (fails rid k e) I) as [I1 _].
  rewrite (step_fails N dest s rid k att e Hk Hb) in I1 |- *.
  rewrite (reject_terminal att a e (take_pending rid s) Ha Hrun He) in I1 |- *.
  destruct (run_events_ok N dest evs' _ I1) as [I2 S2].
  pose proof (inv_running _ I _ _ Ha Hrun) as H0.
  split; [done|].
  destruct (S2 (a_run a) (Failed e)) as [Hr Hl]; [|done|].
  { simpl. apply list_lookup_insert_eq. eapply lookup_lt_Some; eauto. }
  split; [exact Hr|]. split.
  - rewrite Hl. unfold launched. simpl. by rewrite fmap_run_status.
  - eapply terminal_idle; [exact I2|exact Hr|done].
Qed.

Lemma failure_without_header_witness :
  let s := run_events box "/data" (boot ∅ ["0"])
             [FolderSettled 0 (inr (root_info []))] in
  let e := ResponseError 500 (Some ∅) in
  let s1 := step box "/data" s (FolderSettled 1 (inl e)) in
  no_retry_header e
  ∧ trace s1 = trace s ++ [ALogError (ErrDownload "0" e)]
  ∧ runs (run_events box "/data" s1 [TimerFired 2; FolderSettled 1 (inl e)]) !! 0
    = Some (Failed e).
Proof.
  cbn zeta.
  assert (He : no_retry_header (ResponseError 500 (Some ∅))) by (left; lia).
  destruct (failure_without_header_is_final box "/data" ∅ ["0"]
              [FolderSettled 0 (inr (root_info []))] 0
              {| a_run := 0; a_root := "0"; a_path := "/data/Shared";
                 a_ledger := 0; a_status := Running |}
              1 (KPage 0 "0" "/data/Shared" 0 []) (ResponseError 500 (Some ∅))
              [TimerFired 2; FolderSettled 1 (inl (ResponseError 500 (Some ∅)))])
    as (Ht & Hr & _); [reflexivity|reflexivity|reflexivity|reflexivity|exact He|].
  split; [exact He|]. split; [exact Ht|exact Hr].
Defined.

(** C5: the listing of a folder asks for pages of 1000 entries one
    after the other, at the offsets 0, 1000, 2000, ..., keeps the pages
    in the order fetched, and stops at the first page of fewer than 1000
    entries: against a server that honours offset and limit, a folder of
    [n] children takes [n / 1000 + 1] requests and yields the children
    in order.  With 1000 children there is a second request, at offset
    1000; with 999 there is one request.  The callback of the promise
    program decides in the same way. *)
Theorem paged_listing name children fuel :
  length children / 1000 < fuel →
  Reader.fetchAllFolderItems fuel (Reader.serve name children)
  = Some (Reader.page_requests 0 (length children / 1000 + 1), inr children)
  ∧ (length children = 1000 →
     fst <$> Reader.fetchAllFolderItems fuel (Reader.serve name children)
     = Some [(0, 1000); (1000, 1000)])
  ∧ (length children = 999 →
     fst <$> Reader.fetchAllFolderItems fuel (Reader.serve name children)
     = Some [(0, 1000)])
  ∧ (∀ offset items,
       length items ≤ 1000 →
       (next_batch offset items = None ↔ length items < 1000)
       ∧ (length items = 1000 →
          next_batch offset items = Some (offset + 1000)))
  ∧ (∀ N dest s rid att folderId path offset allItems info,
       pending s !! rid = Some (KPage att folderId path offset allItems) →
       length (entries info) = 1000 →
       step N dest s (FolderSettled rid (inr info))
       = fetchItemsBatch att folderId path (offset + 1000)
           (allItems ++ entries info) (take_pending rid s)).
Proof.
  intros Hfuel.
  assert (Hall : Reader.fetchAllFolderItems fuel (Reader.serve name children)
    = Some (Reader.page_requests 0 (length children / 1000 + 1),
            inr children)).
  { unfold Reader.fetchAllFolderItems.
    pose proof (fetchItemsBatch_serve name children fuel 0 [] []) as H.
    rewrite Nat.sub_0_r in H. change (0 * 1000) with 0 in H.
    rewrite drop_0 in H. apply H; lia. }
  split; [exact Hall|]. split; [|split; [|split]].
  - intros Hn. rewrite Hall, Hn. reflexivity.
  - intros Hn. rewrite Hall, Hn. reflexivity.
  - intros offset items Hle. split.
    + split.
      * intros Hnone. destruct (decide (length items = 1000)) as [Heq|]; [|lia].
        rewrite (next_batch_full _ _ Heq) in Hnone. done.
      * intros Hlt. apply next_batch_short. lia.
    + apply next_batch_full.
  - intros N dest s rid att folderId path offset allItems info Hk Hlen.
    unfold step. rewrite Hk. by rewrite (next_batch_full _ _ Hlen).
Qed.

Lemma paged_listing_witness :
  length (many 1000) / 1000 < 2
  ∧ Reader.fetchAllFolderItems 2 (Reader.serve "Shared" (many 1000))
    = Some ([(0, 1000); (1000, 1000)], inr (many 1000)).
Proof.
  assert (H : length (many 1000) / 1000 < 2) by (vm_compute; lia).
  split; [exact H|].
  apply (proj1 (paged_listing "Shared" (many 1000) 2 H)).
Defined.

(** C6: when the list of downloaded files already holds the identifier
    of every file that any listing returns, a call of the synchronizer
    asks for no read stream, opens no local file and starts no pipe,
    whatever is delivered and in whatever order. *)
Theorem ledgered_tree_transfers_nothing
    N dest dirs0 root path files evs :
  Forall (lists_within files) evs →
  Forall (λ a, ¬ transfer a)
    (trace (run_events N dest (sync_from dirs0 root path files) evs)).
Proof.
  intros Hevs.
  apply (cov_trace files). apply covered_run; [exact Hevs|].
  apply covered_sync_from.
Qed.

Lemma ledgered_tree_witness :
  let evs := [FolderSettled 0 (inr (root_info [report; photos]));
              FolderSettled 1 (inr (root_info [report]))] in
  Forall (lists_within ["f1"]) evs
  ∧ Forall (λ a, ¬ transfer a)
      (trace (run_events box "/data" (sync_from ∅ "0" "/data/Shared" ["f1"])
                evs)).
Proof.
  cbn zeta.
  assert (H : Forall (lists_within ["f1"])
                [FolderSettled 0 (inr (root_info [report; photos]));
                 FolderSettled 1 (inr (root_info [report]))]).
  { constructor; [|constructor; [|constructor]];
      simpl; intros item Hin Hty.
    - apply elem_of_cons in Hin as [->|Hin]; [by left|].
      apply list_elem_of_singleton in Hin. subst item. discriminate Hty.
    - apply list_elem_of_singleton in Hin. subst item. by left. }
  split; [exact H|].
  apply (ledgered_tree_transfers_nothing box "/data" ∅ "0" "/data/Shared"
           ["f1"] _ H).
Defined.

(** C7 as stated fails: a token with leading dashes that is not the
    destination marker is taken as a root folder identifier. *)
Lemma dashed_token_becomes_root :
  "--verbose" ∈ Cli.rootFolderIds
                  (Cli.parse box ["node"; "App.js"; "--verbose"; "123"]).
Proof. vm_compute. by left. Qed.

(** C7, amended: the only option marker is the token "--destination".
    It never becomes a root folder identifier.  The root folder
    identifiers are, in the order of the command line, exactly the
    tokens from the third on that are neither the marker nor the token
    right after a marker when that token is not empty and does not
    begin with "--" (it is the destination path), whether or not they
    begin with a dash. *)
Theorem only_the_marker_is_an_option N argv :
  let roots := Cli.rootFolderIds (Cli.parse N argv) in
  roots = root_tokens argv
  ∧ ("--destination" ∉ roots)
  ∧ (∀ t, t ∈ roots ↔ ∃ i, argv !! i = Some t ∧ becomes_root argv i)
  ∧ (∀ i t,
       2 ≤ i → argv !! i = Some t → t ≠ "--destination" →
       ¬ (3 ≤ i ∧ argv !! (i - 1) = Some "--destination"
          ∧ Cli.usable_path (Some t) = true) →
       t ∈ roots).
Proof.
  cbn zeta. destruct (parse_tokens N argv) as [Hroots _].
  assert (Hiff : ∀ t, t ∈ Cli.rootFolderIds (Cli.parse N argv)
                      ↔ ∃ i, argv !! i = Some t ∧ becomes_root argv i).
  { intros t. rewrite Hroots. apply elem_of_tokens_at. }
  split; [exact Hroots|]. split; [|split; [exact Hiff|]].
  - rewrite parse_scan. apply scan_no_marker. simpl. apply not_elem_of_nil.
  - intros i t Hi Ht Hne Hno. apply Hiff. exists i. split; [exact Ht|].
    split; [exact Hi|]. split; [rewrite Ht; congruence|].
    intros (H3 & Hprev & Hu). apply Hno. by rewrite Ht in Hu.
Qed.

Lemma only_the_marker_witness :
  let argv := ["node"; "App.js"; "--verbose"; "--destination"; "/data"; "123"] in
  Cli.rootFolderIds (Cli.parse box argv) = ["--verbose"; "123"]
  ∧ ("--destination" ∉ Cli.rootFolderIds (Cli.parse box argv))
  ∧ ("--verbose" ∈ Cli.rootFolderIds (Cli.parse box argv))
  ∧ ("123" ∈ Cli.rootFolderIds (Cli.parse box argv)).
Proof.
  cbn zeta.
  destruct (only_the_marker_is_an_option box
              ["node"; "App.js"; "--verbose"; "--destination"; "/data"; "123"])
    as (H0 & H1 & _ & H2).
  split; [etransitivity; [exact H0|vm_compute; reflexivity]|].
  split; [exact H1|]. split.
  - apply (H2 2 "--verbose"); [lia|reflexivity|discriminate|].
    intros (H & _). lia.
  - apply (H2 5 "123"); [lia|reflexivity|discriminate|].
    intros (_ & H & _). discriminate H.
Defined.

(** C8, evaluated where it fails.  The script is started from
    [/home/user] as [node /opt/box_node/App.js 123], without a
    destination option.  The output root is the directory of the script
    ([__dirname]), not the working directory of the process that the
    comment of line 23 names, and the root's local directory is made
    under it.  With the option, the path that follows it is the output
    root. *)
Theorem default_is_the_script_directory :
  let argv := ["node"; "/opt/box_node/App.js"; "123"] in
  let c := Cli.parse box argv in
  let s := run_events box (Cli.destinationPath c)
             (boot ∅ (Cli.rootFolderIds c))
             [FolderSettled 0 (inr (root_info []))] in
  ("--destination" ∉ drop 2 argv)
  ∧ Cli.destinationPath c = dirname box
  ∧ Cli.destinationPath c ≠ cwd box
  ∧ a_path <$> attempts s = ["/opt/box_node/Shared"]
  ∧ AMkdir "/opt/box_node/Shared" true ∈ trace s
  ∧ Cli.destinationPath
      (Cli.parse box (argv ++ ["--destination"; "/data"])) = "/data".
Proof.
  cbn zeta. split; [|split; [|split; [|split; [|split]]]].
  - simpl. intros H. apply list_elem_of_singleton in H. discriminate H.
  - reflexivity.
  - discriminate.
  - vm_compute. reflexivity.
  - vm_compute. right. by left.
  - vm_compute. reflexivity.
Qed.

(** The destination option.  The output root is the last token taken as
    a destination path (a token right after the marker that is not
    empty and does not begin with "--"), and the directory of the
    script when there is none.  Each root's local directory is the
    output root joined with the name of the root folder, for every
    requested root alike. *)
Theorem destination_option N argv :
  let c := Cli.parse N argv in
  Cli.destinationPath c = default (dirname N) (last (path_tokens argv))
  ∧ ("--destination" ∉ drop 2 argv → Cli.destinationPath c = dirname N)
  ∧ (∀ i p,
       argv !! i = Some p → taken_as_path argv i →
       (∀ j, i < j → ¬ taken_as_path argv j) →
       Cli.destinationPath c = p)
  ∧ (∀ s rid run root info,
       pending s !! rid = Some (KRootInfo run root) →
       let localRootPath :=
         path_join N (Cli.destinationPath c) (folder_name info) in
       let s1 := step N (Cli.destinationPath c) s
                   (FolderSettled rid (inr info)) in
       AMkdir localRootPath true ∈ trace s1
       ∧ attempts s1
         = attempts s ++ [{| a_run := run; a_root := root;
                             a_path := localRootPath;
                             a_ledger := length (heap s);
                             a_status := Running |}]).
Proof.
  cbn zeta. destruct (parse_tokens N argv) as [_ Hdest].
  split; [exact Hdest|]. split; [|split].
  - intros Hno. rewrite parse_scan. by rewrite scan_no_option.
  - intros i p Hp Ht Hlast.
    by rewrite Hdest, (last_path_token argv i p Hp Ht Hlast).
  - intros s rid run root info Hk. unfold step. rewrite Hk.
    split; [|reflexivity].
    simpl. rewrite !elem_of_app. left. right.
    by apply list_elem_of_singleton.
Qed.

Lemma destination_option_witness :
  let argv := ["node"; "App.js"; "123"; "--destination"; "/a"; "456";
               "--destination"] in
  let s1 := step box (Cli.destinationPath (Cli.parse box argv))
              (boot ∅ (Cli.rootFolderIds (Cli.parse box argv)))
              (FolderSettled 1 (inr (root_info []))) in
  taken_as_path argv 4
  ∧ Cli.destinationPath (Cli.parse box argv) = "/a"
  ∧ Cli.destinationPath (Cli.parse box ["node"; "App.js"; "123"])
    = dirname box
  ∧ AMkdir "/a/Shared" true ∈ trace s1
  ∧ a_path <$> attempts s1 = ["/a/Shared"].
Proof.
  cbn zeta.
  assert (Ht : taken_as_path
                 ["node"; "App.js"; "123"; "--destination"; "/a"; "456";
                  "--destination"] 4).
  { split; [lia|]. split; reflexivity. }
  destruct (destination_option box
              ["node"; "App.js"; "123"; "--destination"; "/a"; "456";
               "--destination"])
    as (_ & _ & H2 & H3).
  split; [exact Ht|]. split; [|split].
  - apply (H2 4 "/a"); [reflexivity|exact Ht|].
    intros j Hj (_ & Hprev & Hu).
    destruct j as [|[|[|[|[|[|[|j]]]]]]]; try lia; simpl in *;
      discriminate.
  - apply (proj1 (proj2 (destination_option box ["node"; "App.js"; "123"]))).
    simpl. intros H. apply list_elem_of_singleton in H. discriminate H.
  - destruct (H3 (boot ∅ ["123"; "456"]) 1 1 "456" (root_info []))
      as [Hm Ha]; [reflexivity|].
    split; [exact Hm|]. cbn zeta in Ha.
    etransitivity; [exact (f_equal (fmap a_path) Ha)|reflexivity].
Defined.

(** A 429 that comes without a response makes the test of line 153
    throw: the promise of [retryDownload] is rejected with the
    TypeError, which the handler of lines 168-170 reports. *)
Lemma missing_response_rejects :
  let s := run_events box "/data" (boot ∅ ["0"])
             [FolderSettled 0 (inr (root_info []));
              FolderSettled 1 (inl no_response)] in
  ¬ with_response no_response
  ∧ wrapper <$> runs s = [Some (Rejected type_error)]
  ∧ last (trace s) = Some (ALogError (ErrRootInfo "0" type_error)).
Proof.
  cbn zeta. split; [|vm_compute; done].
  intros H. by apply (H 429).
Qed.

(** C9: the promise returned by [retryDownload] is never rejected and
    fulfils when the root's chain ends, with the errors the SDK
    delivers (a 429 comes with the headers of its response).  In every
    state the program reaches: no root's promise is rejected; the
    report of lines 168-170 has been written only for roots whose own
    folder request failed; a root whose chain has not ended has
    something outstanding to wait on (its folder request, its retry
    timer, or a request of its running call), so its promise is pending
    only while an answer is due; a root that ended as failed has its
    error in the error log.  When a request of a running call fails
    without a retry header, the error is logged and the promise is
    fulfilled in that transition; when the last outstanding request of
    a running call is answered, the completion is logged and the
    promise is fulfilled in that transition, the same way. *)
Theorem retry_wrapper_never_rejects N dest dirs0 roots evs :
  Forall answered evs →
  let s := run_events N dest (boot dirs0 roots) evs in
  (∀ run c, runs s !! run = Some c → ∀ e, wrapper c ≠ Some (Rejected e))
  ∧ (∀ root e,
       ALogError (ErrRootInfo root e) ∈ trace s →
       ∃ run, runs s !! run = Some (InfoFailed e))
  ∧ (∀ run c, runs s !! run = Some c → waits s run c)
  ∧ (∀ run e,
       runs s !! run = Some (Failed e) →
       ∃ root, ALogError (ErrDownload root e) ∈ trace s)
  ∧ (∀ att a rid k,
       attempts s !! att = Some a → a_status a = Running →
       pending s !! rid = Some k → busy att k →
       (∀ e, no_retry_header e →
          let s1 := step N dest s (fails rid k e) in
          runs s1 !! a_run a = Some (Failed e)
          ∧ wrapper <$> runs s1 !! a_run a = Some (Some Fulfilled)
          ∧ last (trace s1) = Some (ALogError (ErrDownload (a_root a) e)))
       ∧ (∀ info,
            let s1 := step N dest s (succeeds rid k info) in
            (quiet att s1 = true →
             runs s1 !! a_run a = Some Completed
             ∧ wrapper <$> runs s1 !! a_run a = Some (Some Fulfilled)
             ∧ last (trace s1) = Some (ALog (LogCompleted (a_root a))))
            ∧ (quiet att s1 = false →
               runs s1 !! a_run a = Some (Attempting att)))).
Proof.
  intros Hevs. cbn zeta.
  pose proof (reach_inv N dest dirs0 roots evs) as I.
  pose proof (reach_live N dest dirs0 roots evs) as [_ L].
  pose proof (sound_run N dest evs _ Hevs (boot_inv dirs0 roots)
                (sound_boot dirs0 roots)) as [Hw Ho].
  set (s := run_events N dest (boot dirs0 roots) evs) in *.
  split; [|split; [|split; [|split]]].
  - intros run c Hc e. destruct c; simpl; try done.
    intros [= ->]. by apply (Hw run e).
  - exact Ho.
  - exact L.
  - intros run e Hr. by apply (inv_logged _ I run).
  - intros att a rid k Ha Hrun Hk Hb. split.
    + intros e He. cbn zeta. apply no_retry_header_spec in He.
      rewrite (step_fails N dest s rid k att e Hk Hb).
      rewrite (reject_terminal att a e (take_pending rid s) Ha Hrun He).
      assert (Hr : runs (set_chain (a_run a) (Failed e)
                     (emit (ALogError (ErrDownload (a_root a) e))
                        (set_status att (RejectedWith e)
                           (take_pending rid s)))) !! a_run a
                   = Some (Failed e)).
      { simpl. apply list_lookup_insert_eq.
        eapply lookup_lt_Some. eapply inv_running; eauto. }
      split; [exact Hr|]. split; [by rewrite Hr|]. simpl. apply last_snoc.
    + intros info. cbn zeta.
      destruct (step_succeeds N dest s att a rid k info I Ha Hrun Hk Hb)
        as [H1 H2].
      split; [|exact H2]. intros Hq. destruct (H1 Hq) as [Hr Ht].
      split; [exact Hr|]. split; [by rewrite Hr|exact Ht].
Qed.

Lemma retry_wrapper_witness :
  let evs := [FolderSettled 0 (inr (root_info []))] in
  let s := run_events box "/data" (boot ∅ ["0"]) evs in
  let e := OtherError "reset" in
  let failed := step box "/data" s (FolderSettled 1 (inl e)) in
  let completed := step box "/data" s (FolderSettled 1 (inr (root_info []))) in
  Forall answered evs
  ∧ no_retry_header e
  ∧ waits s 0 (Attempting 0)
  ∧ wrapper <$> runs failed !! 0 = Some (Some Fulfilled)
  ∧ last (trace failed) = Some (ALogError (ErrDownload "0" e))
  ∧ wrapper <$> runs completed !! 0 = Some (Some Fulfilled)
  ∧ last (trace completed) = Some (ALog (LogCompleted "0")).
Proof.
  cbn zeta.
  assert (Hevs : Forall answered [FolderSettled 0 (inr (root_info []))])
    by (by repeat constructor).
  destruct (retry_wrapper_never_rejects box "/data" ∅ ["0"]
              [FolderSettled 0 (inr (root_info []))] Hevs)
    as (_ & _ & H3 & _ & H5).
  destruct (H5 0 {| a_run := 0; a_root := "0"; a_path := "/data/Shared";
                    a_ledger := 0; a_status := Running |}
              1 (KPage 0 "0" "/data/Shared" 0 []))
    as [Hf Hs]; [reflexivity|reflexivity|reflexivity|reflexivity|].
  destruct (Hf (OtherError "reset") I) as (_ & Hf1 & Hf2).
  destruct (Hs (root_info [])) as [Hs1 _].
  destruct Hs1 as (_ & Hs1 & Hs2); [vm_compute; reflexivity|].
  split; [exact Hevs|]. split; [exact I|].
  split; [apply (H3 0 (Attempting 0)); reflexivity|].
  split; [exact Hf1|]. split; [exact Hf2|]. split; [exact Hs1|exact Hs2].
Defined.

(** C10: when the request for a root's own folder information fails,
    with whatever error (a 429 with a retry-after header included), the
    error is logged by the handler of lines 168-170 and that is the end
    for the root: whatever is delivered afterwards, [retryDownload] is
    never called for it and no timer or request of its chain exists. *)
Theorem root_info_failure_is_final
    N dest dirs0 roots evs rid run root e evs' :
  let s := run_events N dest (boot dirs0 roots) evs in
  pending s !! rid = Some (KRootInfo run root) →
  let s1 := step N dest s (FolderSettled rid (inl e)) in
  let s2 := run_events N dest s1 evs' in
  trace s1 = trace s ++ [ALogError (ErrRootInfo root e)]
  ∧ runs s2 !! run = Some (InfoFailed e)
  ∧ launched run s2 = 0
  ∧ idle run s2.
Proof.
  cbn zeta. pose proof (reach_inv N dest dirs0 roots evs) as I.
  set (s := run_events N dest (boot dirs0 roots) evs) in *.
  intros Hk.
  assert (E : step N dest s (FolderSettled rid (inl e))
              = emit (ALogError (ErrRootInfo root e))
                  (set_chain run (InfoFailed e) (take_pending rid s)))
    by (unfold step; by rewrite Hk).
  pose proof (step_ok N dest s (FolderSettled rid (inl e)) I) as [I1 _].
  rewrite E in I1 |- *.
  destruct (run_events_ok N dest evs' _ I1) as [I2 S2].
  pose proof (inv_info _ I _ _ _ Hk) as H0.
  split; [done|].
  destruct (S2 run (InfoFailed e)) as [Hr Hl]; [|done|].
  { simpl. apply list_lookup_insert_eq. eapply lookup_lt_Some; eauto. }
  split; [exact Hr|]. split.
  - rewrite Hl. apply launched_none. simpl. eapply inv_fresh; eauto.
  - eapply terminal_idle; [exact I2|exact Hr|done].
Qed.

Lemma root_info_failure_witness :
  let s := boot ∅ ["0"] in
  let s1 := step box "/data" s (FolderSettled 0 (inl (limited "30"))) in
  pending s !! 0 = Some (KRootInfo 0 "0")
  ∧ trace s1 = trace s ++ [ALogError (ErrRootInfo "0" (limited "30"))]
  ∧ launched 0 (run_events box "/data" s1 [TimerFired 1; TimerFired 0]) = 0.
Proof.
  cbn zeta.
  destruct (root_info_failure_is_final box "/data" ∅ ["0"] [] 0 0 "0"
              (limited "30") [TimerFired 1; TimerFired 0])
    as (Ht & _ & Hl & _); [reflexivity|].
  split; [reflexivity|]. split; [exact Ht|exact Hl].
Defined.

End SpecProperties.
